(** * pymkv: the MKVFile command builder (src/pymkv/MKVFile.py)

    A shallow embedding of the [MKVFile] class: the ordered track list and
    its index operations, the chapter attachment, the four split-directive
    builders with their timestamp validation, and the serialisation of the
    whole container into an [mkvmerge] argument list.

    Python objects are mutable and shared, and an exception leaves behind
    whatever was assigned before it was raised.  Methods are therefore
    computations in a state-and-exception monad over a [world]: the heap of
    track objects plus the fields of [self]. *)

From Stdlib Require Import ZArith String Ascii List Lia DecimalString.
From stdpp Require Import base option list strings gmap.

Import ListNotations.
Local Open Scope string_scope.
Local Open Scope list_scope.
Local Open Scope Z_scope.
Set Warnings "-register-all".

(** ** Python values *)

(** The dynamically typed arguments the methods inspect with [isinstance],
    [len], iteration, indexing and attribute access.
    - [PBitmath] is a size object of the [bitmath] module, carrying the text
      that ['{}'.format] renders for its [bytes] attribute.
    - [PObj r] is a reference to a plain object: a track living at address
      [r] of the heap, or any other instance of a class that is defined
      outside [bitmath] and has no length, no iteration, no conversion to
      an index and no truth value of its own.
    - [PSlice] is a slice object with integer or absent bounds and step.
    - [PIterable] is any other object that has a length and can be iterated
      (a set, a dict, a [bytes] object, ...), given by the items its
      iteration yields.
    - [PBitmathOther] is an object whose [__module__] is [bitmath] without
      being a size: a class such as [bitmath.MiB], whose [bytes] attribute
      is a property object rendered by ['{}'.format] as the text carried, or
      a function such as [bitmath.getsize], which has no [bytes] attribute
      ([None]). *)
Inductive pyval : Type :=
| PNone
| PBool (b : bool)
| PInt (z : Z)
| PStr (s : string)
| PList (l : list pyval)
| PTuple (l : list pyval)
| PBitmath (bytes : string)
| PObj (r : nat)
| PSlice (start stop step : option Z)
| PIterable (items : list pyval)
| PBitmathOther (bytes : option string).

(** [isinstance(v, int)]: [bool] is a subclass of [int]. *)
Definition isinstance_int (v : pyval) : bool :=
  match v with PInt _ | PBool _ => true | _ => false end.

Definition isinstance_str (v : pyval) : bool :=
  match v with PStr _ => true | _ => false end.

(** [isinstance(v, (list, tuple))]. *)
Definition isinstance_list_tuple (v : pyval) : bool :=
  match v with PList _ | PTuple _ => true | _ => false end.

(** [getattr(v, '__module__', None) == bitmath.__name__]: true of the size
    objects and of every other object of the module. *)
Definition from_bitmath (v : pyval) : bool :=
  match v with PBitmath _ | PBitmathOther _ => true | _ => false end.

(** Truth value of an object, as tested by [if] and [not]. *)
Definition truthy (v : pyval) : bool :=
  match v with
  | PNone => false
  | PBool b => b
  | PInt z => negb (z =? 0)
  | PStr s => negb (String.eqb s "")
  | PList l | PTuple l | PIterable l => match l with [] => false | _ => true end
  | PBitmath _ | PObj _ | PSlice _ _ _ | PBitmathOther _ => true
  end.

(** The value of a [bool] or [int] seen as an integer. *)
Definition int_value (v : pyval) : option Z :=
  match v with
  | PInt z => Some z
  | PBool true => Some 1
  | PBool false => Some 0
  | _ => None
  end.

(** [a == b].  Numbers compare by value across [bool] and [int], strings
    and sequences structurally (a list never equals a tuple), plain objects
    by identity.  The code only compares the two members of a pair after
    each passed [check_ts], so only [None], integers and strings are ever
    compared; on slices, other iterables and objects of [bitmath] that are
    not sizes, which never get that far, [py_eq] is [false]. *)
Fixpoint py_eq (a b : pyval) {struct a} : bool :=
  let fix all_eq (xs ys : list pyval) {struct xs} : bool :=
    match xs, ys with
    | [], [] => true
    | x :: xs', y :: ys' => py_eq x y && all_eq xs' ys'
    | _, _ => false
    end in
  match a, b with
  | PNone, PNone => true
  | (PInt _ | PBool _), (PInt _ | PBool _) =>
      match int_value a, int_value b with
      | Some x, Some y => x =? y
      | _, _ => false
      end
  | PStr s, PStr t => String.eqb s t
  | PList xs, PList ys => all_eq xs ys
  | PTuple xs, PTuple ys => all_eq xs ys
  | PBitmath x, PBitmath y => String.eqb x y
  | PObj r, PObj q => Nat.eqb r q
  | _, _ => false
  end.

(** [str(z)] for an integer. *)
Definition str_of_Z (z : Z) : string := NilZero.string_of_int (Z.to_int z).

(** ** Exceptions and the method monad *)

Inductive exn : Type :=
| IndexError
| TypeError
| ValueError
| FileNotFoundError
| AttributeError.

Inductive outcome (A : Type) : Type :=
| Return (a : A)
| Raise (e : exn).
Arguments Return {A} a.
Arguments Raise {A} e.

(** ** Tracks and the container *)

(** Modelled from the spec: the [MKVTrack] class is imported from the
    package and is not defined in [MKVFile.py].  Its attributes are the ones
    the spec lists for a Track and the ones [MKVFile] reads and writes; it
    is a plain object, not usable as a list index. *)
Record MKVTrack : Type := mkTrack {
  path : string;
  track_id : Z;
  track_type : string;
  track_name : option string;
  language : option string;
  default_track : bool;
  forced_track : bool;
  exclude_chapters : bool
}.

(** The attributes of an [MKVFile] that its methods read or assign.  (The
    attribute [path] is only set by the import of an existing file.)  The
    track list holds references to track objects. *)
Record MKVFile : Type := mkFile {
  mkvmerge_path : string;
  title : option string;
  chapters : option string;
  chapter_language : option string;
  tracks : list nat;
  _split_options : list string
}.

(** The heap of track objects and the attributes of [self].  The track list
    holds references, so one track object may sit at several positions. *)
Record world : Type := mkWorld {
  heap : gmap nat MKVTrack;
  self : MKVFile
}.

Definition M (A : Type) : Type := world -> outcome A * world.

Definition ret {A} (a : A) : M A := fun w => (Return a, w).
Definition raise {A} (e : exn) : M A := fun w => (Raise e, w).
Definition bind {A B} (c : M A) (k : A -> M B) : M B :=
  fun w => match c w with
           | (Return a, w') => k a w'
           | (Raise e, w') => (Raise e, w')
           end.
Definition get_self : M MKVFile := fun w => (Return (self w), w).
Definition set_self (f : MKVFile -> MKVFile) : M unit :=
  fun w => (Return tt, mkWorld (heap w) (f (self w))).
Definition lift {A} (o : outcome A) : M A := fun w => (o, w).

Declare Scope py_scope.
Delimit Scope py_scope with py.
Notation "x <- c1 ;; c2" := (bind c1 (fun x => c2))
  (at level 100, c1 at next level, right associativity) : py_scope.
Notation "c1 ;; c2" := (bind c1 (fun _ => c2))
  (at level 100, right associativity) : py_scope.
Local Open Scope py_scope.

(** Attribute assignments on [self]. *)
Definition set_tracks (l : list nat) (f : MKVFile) : MKVFile :=
  mkFile (mkvmerge_path f) (title f) (chapters f) (chapter_language f) l (_split_options f).
Definition set_chapters (c : option string) (f : MKVFile) : MKVFile :=
  mkFile (mkvmerge_path f) (title f) c (chapter_language f) (tracks f) (_split_options f).
Definition set_chapter_language (c : option string) (f : MKVFile) : MKVFile :=
  mkFile (mkvmerge_path f) (title f) (chapters f) c (tracks f) (_split_options f).
Definition set_split_options (o : list string) (f : MKVFile) : MKVFile :=
  mkFile (mkvmerge_path f) (title f) (chapters f) (chapter_language f) (tracks f) o.

(** ** Python list primitives *)

Module PyList.
Section Ops.
Context {A : Type}.

(** Position addressed by index [i] in a list of length [n]; negative
    indices count from the end. *)
Definition norm_index (n : nat) (i : Z) : option nat :=
  if 0 <=? i then (if i <? Z.of_nat n then Some (Z.to_nat i) else None)
  else if 0 <=? i + Z.of_nat n then Some (Z.to_nat (i + Z.of_nat n))
  else None.

(** [l[i]] *)
Definition getitem (l : list A) (i : Z) : outcome A :=
  match norm_index (length l) i with
  | Some k => match l !! k with Some x => Return x | None => Raise IndexError end
  | None => Raise IndexError
  end.

(** [l[i] = x] *)
Definition setitem (l : list A) (i : Z) (x : A) : outcome (list A) :=
  match norm_index (length l) i with
  | Some k => Return (<[k:=x]> l)
  | None => Raise IndexError
  end.

(** [del l[i]] *)
Definition delitem (l : list A) (i : Z) : outcome (list A) :=
  match norm_index (length l) i with
  | Some k => Return (delete k l)
  | None => Raise IndexError
  end.

(** [l.pop(idx)]: the index must be an integer; anything else is a
    [TypeError] raised before the list is touched. *)
Definition pop (l : list A) (idx : pyval) : outcome (A * list A) :=
  match int_value idx with
  | Some i =>
      match norm_index (length l) i with
      | Some k => match l !! k with
                  | Some x => Return (x, delete k l)
                  | None => Raise IndexError
                  end
      | None => Raise IndexError
      end
  | None => Raise TypeError
  end.

(** [l.insert(i, x)]: the position is clamped to the list. *)
Definition insert (l : list A) (i : Z) (x : A) : list A :=
  let n := Z.of_nat (length l) in
  let j := if 0 <=? i then Z.min i n else Z.max 0 (i + n) in
  take (Z.to_nat j) l ++ x :: drop (Z.to_nat j) l.

(** [l.append(x)] *)
Definition append (l : list A) (x : A) : list A := l ++ [x].

(** A bound of a slice brought into the list: a negative bound counts from
    the end, and what is still outside is clamped (for a negative step, to
    the positions one lower). *)
Definition slice_bound (n step : Z) (bound : option Z) (default_ : Z) : Z :=
  let lower := if step <? 0 then -1 else 0 in
  let upper := if step <? 0 then n - 1 else n in
  match bound with
  | None => default_
  | Some i => if i <? 0 then Z.max (i + n) lower else Z.min i upper
  end.

(** The positions selected by the slice [start:stop:step] in a list of
    length [n], in the order they are visited.  A step of zero is a
    [ValueError]. *)
Definition slice_positions (n : nat) (start stop step : option Z) : outcome (list nat) :=
  let len := Z.of_nat n in
  let step := match step with Some s => s | None => 1 end in
  if step =? 0 then Raise ValueError
  else
    let first := slice_bound len step start (if step <? 0 then len - 1 else 0) in
    let last := slice_bound len step stop (if step <? 0 then -1 else len) in
    let count :=
      if step <? 0
      then (if last <? first then (first - last - 1) / (- step) + 1 else 0)
      else (if first <? last then (last - first - 1) / step + 1 else 0) in
    Return (List.map (fun k => Z.to_nat (first + Z.of_nat k * step))
                     (seq 0 (Z.to_nat count))).

(** [l[start:stop:step]]: a new list of the selected items. *)
Definition getslice (l : list A) (start stop step : option Z) : outcome (list A) :=
  match slice_positions (length l) start stop step with
  | Return ks => Return (omap (fun k => l !! k) ks)
  | Raise e => Raise e
  end.
End Ops.
End PyList.

(** The same primitives acting on [self.tracks] in place. *)
Definition tracks_len : M Z :=
  f <- get_self ;; ret (Z.of_nat (length (tracks f))).
Definition tracks_getitem (i : Z) : M nat :=
  f <- get_self ;; lift (PyList.getitem (tracks f) i).
Definition tracks_setitem (i : Z) (x : nat) : M unit :=
  f <- get_self ;; l <- lift (PyList.setitem (tracks f) i x) ;; set_self (set_tracks l).
Definition tracks_delitem (i : Z) : M unit :=
  f <- get_self ;; l <- lift (PyList.delitem (tracks f) i) ;; set_self (set_tracks l).
Definition tracks_pop (idx : pyval) : M nat :=
  f <- get_self ;;
  xl <- lift (PyList.pop (tracks f) idx) ;;
  set_self (set_tracks (snd xl)) ;;
  ret (fst xl).
Definition tracks_insert (i : Z) (x : nat) : M unit :=
  set_self (fun f => set_tracks (PyList.insert (tracks f) i x) f).
Definition tracks_append (x : nat) : M unit :=
  set_self (fun f => set_tracks (PyList.append (tracks f) x) f).

(** ** Track collection management *)

(** [0 <= i < n] *)
Definition in_range (lo i hi : Z) : bool := (lo <=? i) && (i <? hi).

Definition remove_track (track_num : Z) : M unit :=
  n <- tracks_len ;;
  if in_range 0 track_num n then tracks_delitem track_num
  else raise IndexError.

Definition move_track_front (track_num : Z) : M unit :=
  n <- tracks_len ;;
  if in_range 0 track_num n then
    t <- tracks_getitem track_num ;;
    x <- tracks_pop (PObj t) ;;
    tracks_insert 0 x
  else raise IndexError.

Definition move_track_end (track_num : Z) : M unit :=
  n <- tracks_len ;;
  if in_range 0 track_num n then
    t <- tracks_getitem track_num ;;
    x <- tracks_pop (PObj t) ;;
    tracks_append x
  else raise IndexError.

Definition move_track_forward (track_num : Z) : M unit :=
  n <- tracks_len ;;
  if in_range 0 track_num (n - 1) then
    a <- tracks_getitem (track_num + 1) ;;
    b <- tracks_getitem track_num ;;
    tracks_setitem track_num a ;;
    tracks_setitem (track_num + 1) b
  else raise IndexError.

Definition move_track_backward (track_num : Z) : M unit :=
  n <- tracks_len ;;
  if (0 <? track_num) && (track_num <? n) then
    a <- tracks_getitem (track_num - 1) ;;
    b <- tracks_getitem track_num ;;
    tracks_setitem track_num a ;;
    tracks_setitem (track_num - 1) b
  else raise IndexError.

Definition swap_tracks (track_num_1 track_num_2 : Z) : M unit :=
  n <- tracks_len ;;
  if in_range 0 track_num_1 n && in_range 0 track_num_2 n then
    a <- tracks_getitem track_num_2 ;;
    b <- tracks_getitem track_num_1 ;;
    tracks_setitem track_num_1 a ;;
    tracks_setitem track_num_2 b
  else raise IndexError.

Definition replace_track (track_num : Z) (track : nat) : M unit :=
  n <- tracks_len ;;
  if in_range 0 track_num n then tracks_setitem track_num track
  else raise IndexError.

(** [for track in self.tracks: track.exclude_chapters = True] *)
Definition set_exclude_chapters (b : bool) (t : MKVTrack) : MKVTrack :=
  mkTrack (path t) (track_id t) (track_type t) (track_name t) (language t)
          (default_track t) (forced_track t) b.

Definition track_setattr_exclude_chapters (r : nat) (b : bool) : M unit :=
  fun w => (Return tt, mkWorld (alter (set_exclude_chapters b) r (heap w)) (self w)).

Fixpoint for_each {A} (l : list A) (body : A -> M unit) : M unit :=
  match l with
  | [] => ret tt
  | x :: l' => body x ;; for_each l' body
  end.

Definition exclude_internal_chapters : M unit :=
  f <- get_self ;;
  for_each (tracks f) (fun track => track_setattr_exclude_chapters track true).

(** ** Regular expressions

    The two patterns of [check_ts] are matched by [re.match].  Patterns are
    kept as syntax and matched by derivatives, which decides whether the
    backtracking matcher of [re] finds a match. *)

Module Regex.

Inductive regex : Type :=
| Void
| Eps
| Chr (c : ascii)
| Range (lo hi : ascii)
| Cat (r1 r2 : regex)
| Alt (r1 r2 : regex)
| Star (r : regex).

(** [r?] *)
Definition Opt (r : regex) : regex := Alt Eps r.

(** [r{n}] and [r{0,n}] *)
Fixpoint exactly (n : nat) (r : regex) : regex :=
  match n with O => Eps | S n' => Cat r (exactly n' r) end.
Fixpoint upto (n : nat) (r : regex) : regex :=
  match n with O => Eps | S n' => Opt (Cat r (upto n' r)) end.

(** [r{m,n}] *)
Definition Rep (m n : nat) (r : regex) : regex :=
  Cat (exactly m r) (upto (n - m) r).

Fixpoint nullable (r : regex) : bool :=
  match r with
  | Void | Chr _ | Range _ _ => false
  | Eps | Star _ => true
  | Cat r1 r2 => nullable r1 && nullable r2
  | Alt r1 r2 => nullable r1 || nullable r2
  end.

Definition in_range_ascii (lo hi c : ascii) : bool :=
  (N_of_ascii lo <=? N_of_ascii c)%N && (N_of_ascii c <=? N_of_ascii hi)%N.

Fixpoint deriv (c : ascii) (r : regex) : regex :=
  match r with
  | Void | Eps => Void
  | Chr d => if Ascii.eqb c d then Eps else Void
  | Range lo hi => if in_range_ascii lo hi c then Eps else Void
  | Cat r1 r2 =>
      if nullable r1 then Alt (Cat (deriv c r1) r2) (deriv c r2)
      else Cat (deriv c r1) r2
  | Alt r1 r2 => Alt (deriv c r1) (deriv c r2)
  | Star r1 => Cat (deriv c r1) (Star r1)
  end.

Fixpoint matches (r : regex) (s : string) : bool :=
  match s with
  | EmptyString => nullable r
  | String c s' => matches (deriv c r) s'
  end.

(** [re.match('^' r '$', s)] finds a match: [$] matches at the end of the
    string and also just before a newline that ends the string. *)
Definition re_match_anchored (r : regex) (s : string) : bool :=
  matches (Cat r (Opt (Chr "010"))) s.

End Regex.

Import Regex.

(** [[0-9]] *)
Definition digit : regex := Range "0" "9".

(** [^[0-9]{1,2}(:[0-9]{1,2}){1,2}(\.[0-9]{1,9})?$] *)
Definition ts_regex : regex :=
  Cat (Rep 1 2 digit)
      (Cat (Rep 1 2 (Cat (Chr ":") (Rep 1 2 digit)))
           (Opt (Cat (Chr ".") (Rep 1 9 digit)))).

(** [^\+?[0-9]{1,2}(:[0-9]{1,2}){1,2}(\.[0-9]{1,9})?$] *)
Definition ts_plus_regex : regex := Cat (Opt (Chr "+")) ts_regex.

(** ** Timestamp validation and flattening *)

(** [check_ts(timestamp, plus)].  The result is the returned object: the
    branch for a leading ['+'] ends in a bare [return], that is [None].
    (The [print] of the timestamp is not modelled.) *)
Definition check_ts (timestamp : pyval) (plus : bool) : pyval :=
  match timestamp with
  | PStr s =>
      if re_match_anchored ts_regex s then PBool true
      else if plus && re_match_anchored ts_plus_regex s then PNone
      else PBool false
  | _ =>
      if isinstance_int timestamp then PBool true
      else PBool false
  end.

Fixpoint flatten (item : pyval) : list pyval :=
  match item with
  | PList l | PTuple l => concat (List.map flatten l)
  | _ => [item]
  end.

(** ** String helpers *)

(** [s[:-1]] *)
Fixpoint str_init (s : string) : string :=
  match s with
  | EmptyString => EmptyString
  | String c EmptyString => EmptyString
  | String c s' => String c (str_init s')
  end.

(** [sub in s] for two strings. *)
Fixpoint str_contains (sub s : string) : bool :=
  String.prefix sub s ||
  match s with
  | EmptyString => false
  | String _ s' => str_contains sub s'
  end.

(** [str(v)] and ['{}'.format(v)] of an integer or a boolean, the only
    values the methods format. *)
Definition str_int (v : pyval) : string :=
  match v with
  | PInt z => str_of_Z z
  | PBool true => "True"
  | PBool false => "False"
  | _ => ""
  end.

(** [a + v] where [a] is a string: [v] must be a string too. *)
Definition str_add (a : string) (v : pyval) : outcome string :=
  match v with
  | PStr s => Return (a +:+ s)
  | _ => Raise TypeError
  end.

(** [v + b] where [b] is a string. *)
Definition str_add_l (v : pyval) (b : string) : outcome string :=
  match v with
  | PStr s => Return (s +:+ b)
  | _ => Raise TypeError
  end.

(** Truth value of an optional string attribute ([None] and [''] are
    false). *)
Definition is_set (o : option string) : bool :=
  match o with
  | Some s => negb (String.eqb s "")
  | None => false
  end.

(** ** Split directives *)

(** [size.bytes], already rendered by ['{}'.format], for an object of the
    [bitmath] module; an object without that attribute raises
    [AttributeError]. *)
Definition getattr_bytes (size : pyval) : outcome string :=
  match size with
  | PBitmath bytes => Return bytes
  | PBitmathOther (Some bytes) => Return bytes
  | _ => Raise AttributeError
  end.

Definition split_size (size : pyval) : M unit :=
  if from_bitmath size then
    bytes <- lift (getattr_bytes size) ;;
    set_self (set_split_options ["--split"; "size:" +:+ bytes])
  else if negb (isinstance_int size) then raise TypeError
  else set_self (set_split_options ["--split"; "size:" +:+ str_int size]).

Definition split_duration (duration : pyval) : M unit :=
  if isinstance_str duration && truthy (check_ts duration false) then
    d <- lift (str_add "duration:" duration) ;;
    set_self (set_split_options ["--split"; d])
  else if isinstance_int duration then
    set_self (set_split_options ["--split"; "duration:" +:+ str_int duration +:+ "s"])
  else raise TypeError.

(** The loop of [split_timestamps] over the flattened timestamps, threading
    the local [ts_string]. *)
Fixpoint timestamps_loop (l : list pyval) (ts_string : string) : outcome string :=
  match l with
  | [] => Return ts_string
  | ts :: l' =>
      if isinstance_int ts then
        timestamps_loop l' (ts_string +:+ (str_int ts +:+ "s") +:+ ",")
      else if isinstance_str ts && truthy (check_ts ts false) then
        match str_add_l ts "," with
        | Return s => timestamps_loop l' (ts_string +:+ s)
        | Raise e => Raise e
        end
      else if negb (isinstance_int ts) && negb (isinstance_str ts) then Raise TypeError
      else Raise ValueError
  end.

(** [split_timestamps] is variadic: [timestamps] is the tuple of its
    arguments. *)
Definition split_timestamps (timestamps : list pyval) : M unit :=
  if (Z.of_nat (length timestamps) =? 0) then raise ValueError
  else
    let timestamps := flatten (PTuple timestamps) in
    ts_string <- lift (timestamps_loop timestamps "timestamps:") ;;
    set_self (set_split_options ["--split"; str_init ts_string]).

(** [len(v)] and iteration over [v]: the items of a list, a tuple or
    another sized iterable, the characters of a string; the other values
    have no length. *)
Definition py_items (v : pyval) : outcome (list pyval) :=
  match v with
  | PList l | PTuple l | PIterable l => Return l
  | PStr s => Return (List.map (fun c => PStr (String c EmptyString)) (list_ascii_of_string s))
  | _ => Raise TypeError
  end.

Definition is_None (v : pyval) : bool :=
  match v with PNone => true | _ => false end.

(** One round of the loop of [split_parts]: the checks on the pair, then the
    text appended to [ts_string]. *)
Definition parts_step (pair_ : pyval) (ts_string : string) : outcome string :=
  match pair_ with
  | PList [p0; p1] | PTuple [p0; p1] =>
      if negb (is_None p0) && negb (truthy (check_ts p0 true)) then Raise ValueError
      else if negb (is_None p1) && negb (truthy (check_ts p1 false)) then Raise ValueError
      else if py_eq p0 p1 then Raise ValueError
      else
        match (if isinstance_int p0 then Return (ts_string +:+ (str_int p0 +:+ "s"))
               else if negb (is_None p0) then str_add ts_string p0
               else Return ts_string) with
        | Raise e => Raise e
        | Return s1 =>
            let s2 := s1 +:+ "-" in
            match (if isinstance_int p1 then Return (s2 +:+ (str_int p1 +:+ "s"))
                   else if negb (is_None p1) then str_add s2 p1
                   else Return s2) with
            | Raise e => Raise e
            | Return s3 => Return (s3 +:+ ",")
            end
        end
  | _ => Raise ValueError
  end.

Fixpoint parts_loop (l : list pyval) (ts_string : string) : outcome string :=
  match l with
  | [] => Return ts_string
  | pair_ :: l' =>
      match parts_step pair_ ts_string with
      | Return s => parts_loop l' s
      | Raise e => Raise e
      end
  end.

Definition split_parts (parts : pyval) : M unit :=
  items <- lift (py_items parts) ;;
  if (Z.of_nat (length items) =? 0) then raise ValueError
  else
    ts_string <- lift (parts_loop items "parts:") ;;
    set_self (set_split_options ["--split"; str_init ts_string]).

(** ** The environment: file system and home directory *)

(** What the methods observe of the outside: [os.path.expanduser],
    [os.path.isfile], and the text of the reference file ['ISO639-2.txt']
    read by [open(...).read()] ([None] when it cannot be opened).  The
    reference file is not part of the sources. *)
Record Env : Type := mkEnv {
  expanduser : string -> string;
  isfile : string -> bool;
  iso639_2_txt : option string
}.

Section WithEnv.
Variable env : Env.

(** ** Chapter attachment *)

Definition open_iso639_2_read : M string :=
  match iso639_2_txt env with
  | Some text => ret text
  | None => raise FileNotFoundError
  end.

Definition add_chapters (chapters_ : string) (language_ : option string) : M unit :=
  let p := expanduser env chapters_ in
  set_self (set_chapters (Some p)) ;;
  (if negb (isfile env p) then raise FileNotFoundError else ret tt) ;;
  if is_set language_ then
    match language_ with
    | Some lang =>
        text <- open_iso639_2_read ;;
        if str_contains lang text then set_self (set_chapter_language (Some lang))
        else raise ValueError
    | None => ret tt
    end
  else ret tt.

(** ** Command serialisation *)

(** The body of the loop over [self.tracks]: the arguments of one track
    are appended to the local list [command]. *)
Definition command_track (track : MKVTrack) (command : list string) : list string :=
  let tid := str_of_Z (track_id track) in
  let command :=
    match track_name track with
    | Some name => if is_set (track_name track)
                   then command ++ ["--track-name"; (tid +:+ ":") +:+ name] else command
    | None => command
    end in
  let command :=
    match language track with
    | Some lang => if is_set (language track)
                   then command ++ ["--language"; (tid +:+ ":") +:+ lang] else command
    | None => command
    end in
  let command :=
    if negb (default_track track) then command ++ ["--default-track"; tid +:+ ":0"]
    else command in
  let command :=
    if forced_track track then command ++ ["--forced-track"; tid +:+ ":1"]
    else command in
  let command :=
    if negb (String.eqb (track_type track) "video") then command ++ ["-D"]
    else command ++ ["-d"; tid] in
  let command :=
    if negb (String.eqb (track_type track) "audio") then command ++ ["-A"]
    else command ++ ["-a"; tid] in
  let command :=
    if negb (String.eqb (track_type track) "subtitles") then command ++ ["-S"]
    else command ++ ["-s"; tid] in
  let command :=
    if exclude_chapters track then command ++ ["--no-chapters"] else command in
  command ++ [path track].

(** [for track in self.tracks]: every reference of the list designates a
    live track object. *)
Fixpoint command_tracks (h : gmap nat MKVTrack) (l : list nat) (command : list string)
  : list string :=
  match l with
  | [] => command
  | r :: l' =>
      match h !! r with
      | Some track => command_tracks h l' (command_track track command)
      | None => command_tracks h l' command
      end
  end.

(** The argument list built by [command]. *)
Definition command_args (w : world) (output_file : string) : list string :=
  let f := self w in
  let command := [mkvmerge_path f; "-o"; expanduser env output_file] in
  let command :=
    match title f with
    | Some t => if is_set (title f) then command ++ ["--title"; t] else command
    | None => command
    end in
  let command := command_tracks (heap w) (tracks f) command in
  let command :=
    match chapter_language f with
    | Some l => if is_set (chapter_language f)
                then command ++ ["--chapter-language"; l] else command
    | None => command
    end in
  let command :=
    match chapters f with
    | Some c => if is_set (chapters f) then command ++ ["--chapters"; c] else command
    | None => command
    end in
  command ++ _split_options f.

(** [command(output_file, subprocess)]: the list itself, or its items
    joined by spaces. *)
Definition command (output_file : string) (subprocess : bool) : M pyval :=
  fun w =>
    let args := command_args w output_file in
    (Return (if subprocess then PList (List.map PStr args)
             else PStr (String.concat " " args)), w).

End WithEnv.

(** [MKVFile(title=title)], the constructor without a file to import (the
    import runs the external [mkvmerge -J] probe). *)
Definition new_MKVFile (title_ : option string) : MKVFile :=
  mkFile "mkvmerge" title_ None None [] [].

(** ** Calls in sequence *)

(** A call of one of the four split methods. *)
Inductive split_call : Type :=
| SplitSize (size : pyval)
| SplitDuration (duration : pyval)
| SplitTimestamps (timestamps : list pyval)
| SplitParts (parts : pyval).

Definition run_call (c : split_call) : M unit :=
  match c with
  | SplitSize size => split_size size
  | SplitDuration duration => split_duration duration
  | SplitTimestamps timestamps => split_timestamps timestamps
  | SplitParts parts => split_parts parts
  end.

(** A caller making the calls one after the other, going on after a
    rejected call. *)
Fixpoint run_calls (cs : list split_call) (w : world) : world :=
  match cs with
  | [] => w
  | c :: cs' => run_calls cs' (snd (run_call c w))
  end.


(** ** Auxiliary notions used in the statements *)

(** [len(self.tracks)] *)
Definition tracks_length (w : world) : Z := Z.of_nat (length (tracks (self w))).

(** A container of two tracks. *)
Definition two_tracks : world :=
  mkWorld ∅ (mkFile "mkvmerge" None None None [0%nat; 1%nat] []).

(** An index-checked method [op] with valid positions [valid]: it raises
    [IndexError] exactly when the position is not valid, and then the world
    is the one it was called in. *)
Definition index_checked (valid : Prop) (op : M unit) (w : world) : Prop :=
  (fst (op w) = Raise IndexError <-> ~ valid) /\
  (~ valid -> snd (op w) = w).

(** The world after [self.tracks] became [l]. *)
Definition with_tracks (l : list nat) (w : world) : world :=
  mkWorld (heap w) (set_tracks l (self w)).

(** The identity on paths, a file system without files, and the container
    made by [MKVFile()]. *)
Definition no_files : Env := mkEnv (fun p => p) (fun _ => false) None.
Definition empty_file : world := mkWorld ∅ (new_MKVFile None).

Definition newline : string := String "010" EmptyString.

(** Modelled from the spec: the reference file ['ISO639-2.txt'] is not in
    the repository; the spec calls it a static reference list of ISO639-2
    codes.  [iso_file_of codes] is the text of a file listing [codes], one
    per line. *)
Fixpoint iso_file_of (codes : list string) : string :=
  match codes with
  | [] => ""
  | c :: codes' => c +:+ newline +:+ iso_file_of codes'
  end.

Definition three_codes : list string := ["eng"; "fre"; "ger"].

(** Every path is an existing file and the reference list holds
    [three_codes]. *)
Definition env_three_codes : Env :=
  mkEnv (fun p => p) (fun _ => true) (Some (iso_file_of three_codes)).

(** The world after [self._split_options] became [o]. *)
Definition with_split_options (o : list string) (w : world) : world :=
  mkWorld (heap w) (set_split_options o (self w)).

(** What a call of a split method does, whatever the container it is
    called on: it is refused with an exception [e] and the container is as
    before, or it ends normally and the split options are the two items
    [--split] and one directive [d] fixed by the arguments. *)
Inductive split_effect (op : M unit) : Prop :=
| Refused (e : exn) (Hraise : forall w, op w = (Raise e, w))
| Directive (d : string) (Hd : d <> "--split")
    (Hset : forall w, op w = (Return tt, with_split_options ["--split"; d] w)).

(** Number of [--split] flags among the split options. *)
Definition split_flags (w : world) : nat :=
  length (List.filter (fun s => String.eqb s "--split") (_split_options (self w))).

(** The timestamps [split_timestamps] accepts, and their text in the
    directive: integers are suffixed with [s], strings are taken as they
    are. *)
Definition valid_ts (ts : pyval) : bool :=
  isinstance_int ts || (isinstance_str ts && truthy (check_ts ts false)).

Definition render_ts (ts : pyval) : string :=
  if isinstance_int ts then str_int ts +:+ "s"
  else match ts with PStr s => s | _ => "" end.

(** The items of [l], each followed by a comma. *)
Fixpoint comma_terminated (l : list string) : string :=
  match l with
  | [] => ""
  | x :: l' => x +:+ "," +:+ comma_terminated l'
  end.

(** The pairs [split_parts] accepts, and their text in the directive: the
    start and the end around a dash, an absent member giving no text. *)
Definition valid_pair (pair_ : pyval) : bool :=
  match pair_ with
  | PList [p0; p1] | PTuple [p0; p1] =>
      (is_None p0 || truthy (check_ts p0 true)) &&
      (is_None p1 || truthy (check_ts p1 false)) &&
      negb (py_eq p0 p1)
  | _ => false
  end.

Definition render_pair (pair_ : pyval) : string :=
  match pair_ with
  | PList [p0; p1] | PTuple [p0; p1] => render_ts p0 +:+ "-" +:+ render_ts p1
  | _ => ""
  end.

(** A syntactic test that a pattern matches no string at all. *)
Fixpoint is_void (r : regex) : bool :=
  match r with
  | Void => true
  | Cat r1 r2 => is_void r1 || is_void r2
  | Alt r1 r2 => is_void r1 && is_void r2
  | Eps | Chr _ | Range _ _ | Star _ => false
  end.

(** [pair_] is the two-element list or tuple of [p0] and [p1]. *)
Definition is_pair (pair_ p0 p1 : pyval) : Prop :=
  pair_ = PList [p0; p1] \/ pair_ = PTuple [p0; p1].

(** A container whose split options were set before. *)
Definition split_before : world :=
  with_split_options ["--split"; "duration:90s"] empty_file.

(** ** The argument list as the specification lays it out *)

(** A flag with its value, present when the optional value is set. *)
Definition flag_if_set (flag prefix_ : string) (o : option string) : list string :=
  match o with
  | Some v => if is_set o then [flag; prefix_ +:+ v] else []
  | None => []
  end.

(** The stream selection of a track: the two other kinds are switched off
    and the kind of the track keeps the track's id. *)
Definition selection_flags (t : MKVTrack) : list string :=
  let tid := str_of_Z (track_id t) in
  (if String.eqb (track_type t) "video" then ["-d"; tid] else ["-D"]) ++
  (if String.eqb (track_type t) "audio" then ["-a"; tid] else ["-A"]) ++
  (if String.eqb (track_type t) "subtitles" then ["-s"; tid] else ["-S"]).

(** The arguments of one track: name flag, language flag, negation of the
    default flag (only for a track that is not default), forced flag (only
    for a forced track), stream selection, chapter exclusion (if set),
    source path. *)
Definition track_args (t : MKVTrack) : list string :=
  let tid := str_of_Z (track_id t) in
  flag_if_set "--track-name" (tid +:+ ":") (track_name t) ++
  flag_if_set "--language" (tid +:+ ":") (language t) ++
  (if default_track t then [] else ["--default-track"; tid +:+ ":0"]) ++
  (if forced_track t then ["--forced-track"; tid +:+ ":1"] else []) ++
  selection_flags t ++
  (if exclude_chapters t then ["--no-chapters"] else []) ++
  [path t].

(** The track objects of the collection, in collection order. *)
Definition track_objects (w : world) : list MKVTrack :=
  omap (fun r => heap w !! r) (tracks (self w)).

(** The whole list: program and output path, title flag, the arguments of
    each track in collection order, chapter-language flag, chapters flag,
    split options. *)
Definition command_layout (env : Env) (w : world) (output_file : string) : list string :=
  let f := self w in
  [mkvmerge_path f; "-o"; expanduser env output_file] ++
  flag_if_set "--title" "" (title f) ++
  concat (List.map track_args (track_objects w)) ++
  flag_if_set "--chapter-language" "" (chapter_language f) ++
  flag_if_set "--chapters" "" (chapters f) ++
  _split_options f.

(** [l] holds the items of [seg] next to each other. *)
Definition has_segment (seg l : list string) : Prop :=
  exists before after, l = before ++ seg ++ after.

(** A video track that is not the default one, alone in a container. *)
Definition video_track : MKVTrack :=
  mkTrack "in.mkv" 0 "video" (Some "Track1") None false false false.
Definition one_video_track : world :=
  mkWorld {[ 0%nat := video_track ]} (mkFile "mkvmerge" None None None [0%nat] []).

(** Three track objects, two of them in a container that lists the first
    one twice. *)
Definition audio_track : MKVTrack :=
  mkTrack "in.mkv" 1 "audio" None (Some "eng") true false false.
Definition subtitle_track : MKVTrack :=
  mkTrack "subs.mkv" 0 "subtitles" None (Some "fre") false true false.
Definition shared_tracks : world :=
  mkWorld {[ 0%nat := video_track; 1%nat := audio_track; 2%nat := subtitle_track ]}
          (mkFile "mkvmerge" (Some "Film") None None [0%nat; 1%nat; 0%nat]
                  ["--split"; "size:700000000"]).

(** ** Looking up a track *)

(** What [get_track] returns: the track list itself, one of its items, or
    the new list made by a slice. *)
Inductive track_result : Type :=
| AllTracks (l : list nat)
| OneTrack (r : nat)
| SomeTracks (l : list nat).

(** [self.tracks[v]] for an index that is an integer (or a boolean): it
    addresses an item, negative ones from the end.  (Slices are handled by
    [tracks_subscript]; the other values are not indices.) *)
Definition tracks_getitem_val (v : pyval) : M nat :=
  match int_value v with
  | Some i => tracks_getitem i
  | None => raise TypeError
  end.

(** [self.tracks[v]]: a slice selects a new list, an integer one item; the
    other values (strings, sequences, sets, plain objects, ...) are not
    list indices. *)
Definition tracks_subscript (v : pyval) : M track_result :=
  match v with
  | PSlice start stop step =>
      f <- get_self ;;
      l <- lift (PyList.getslice (tracks f) start stop step) ;;
      ret (SomeTracks l)
  | _ => r <- tracks_getitem_val v ;; ret (OneTrack r)
  end.

Definition get_track (track_num : pyval) : M track_result :=
  if is_None track_num then
    f <- get_self ;; ret (AllTracks (tracks f))
  else tracks_subscript track_num.

(** ** Adding tracks and files *)

(** Attribute assignments on a track object. *)
Definition set_track_name (n : option string) (t : MKVTrack) : MKVTrack :=
  mkTrack (path t) (track_id t) (track_type t) n (language t)
          (default_track t) (forced_track t) (exclude_chapters t).
Definition set_language (l : option string) (t : MKVTrack) : MKVTrack :=
  mkTrack (path t) (track_id t) (track_type t) (track_name t) l
          (default_track t) (forced_track t) (exclude_chapters t).
Definition set_default_track (b : bool) (t : MKVTrack) : MKVTrack :=
  mkTrack (path t) (track_id t) (track_type t) (track_name t) (language t)
          b (forced_track t) (exclude_chapters t).
Definition set_forced_track (b : bool) (t : MKVTrack) : MKVTrack :=
  mkTrack (path t) (track_id t) (track_type t) (track_name t) (language t)
          (default_track t) b (exclude_chapters t).

(** [track.attr = value] for the track object at address [r]. *)
Definition track_setattr (r : nat) (f : MKVTrack -> MKVTrack) : M unit :=
  fun w => (Return tt, mkWorld (alter f r (heap w)) (self w)).

(** A new track object is put on the heap, at an address not in use. *)
Definition heap_alloc (t : MKVTrack) : M nat :=
  fun w =>
    let r := fresh (dom (heap w)) in
    (Return r, mkWorld (<[r := t]> (heap w)) (self w)).

(** The parsed output of [mkvmerge -J], as far as [__init__] reads it: the
    title of the container and, for each track, its id and the properties
    [default_track], [forced_track], [language] and [track_name].  A key
    that is absent is [None]. *)
Record probe_track : Type := mkProbeTrack {
  probe_id : Z;
  probe_default_track : option bool;
  probe_forced_track : option bool;
  probe_language : option string;
  probe_track_name : option string
}.

Record probe_info : Type := mkProbe {
  probe_title : option string;
  probe_tracks : list probe_track
}.

(** What [add_file] is called with: a string, an [MKVFile] object (given
    by its attributes), or anything else. *)
Inductive file_arg : Type :=
| FilePath (p : string)
| FileObject (f : MKVFile)
| FileOther.

Section Construction.
Variable env : Env.

(** Modelled from the spec: the constructor of [MKVTrack], which is not in
    [MKVFile.py].  [MKVTrack(path, track_id=.., track_name=..)] gives the
    attributes of the new track object or raises. *)
Variable new_MKVTrack : string -> option Z -> option string -> outcome MKVTrack.

(** The external probe [json.loads(check_output([mkvmerge, '-J', path]))]:
    the parsed description of the file at [path], or an exception. *)
Variable mkvmerge_J : string -> outcome probe_info.

(** [isinstance(track, MKVTrack)]: the track objects are the objects of the
    heap. *)
Definition add_track (track : pyval) (track_name_ : option string) : M unit :=
  match track with
  | PStr p =>
      t <- lift (new_MKVTrack p None track_name_) ;;
      new_track <- heap_alloc t ;;
      tracks_append new_track
  | PObj r =>
      fun w =>
        match heap w !! r with
        | Some _ =>
            ((if is_set track_name_ then track_setattr r (set_track_name track_name_)
              else ret tt) ;;
             tracks_append r) w
        | None => (Raise TypeError, w)
        end
  | _ => raise TypeError
  end.

(** The loop of [__init__] over the probed tracks. *)
Definition import_track (path_ : string) (track : probe_track) : M unit :=
  t <- lift (new_MKVTrack path_ (Some (probe_id track)) None) ;;
  new_track <- heap_alloc t ;;
  (match probe_default_track track with
   | Some b => track_setattr new_track (set_default_track b)
   | None => ret tt
   end) ;;
  (match probe_forced_track track with
   | Some b => track_setattr new_track (set_forced_track b)
   | None => ret tt
   end) ;;
  (match probe_language track with
   | Some l => track_setattr new_track (set_language (Some l))
   | None => ret tt
   end) ;;
  (match probe_track_name track with
   | Some n => track_setattr new_track (set_track_name (Some n))
   | None => ret tt
   end) ;;
  add_track (PObj new_track) None.

Definition set_title (t : option string) (f : MKVFile) : MKVFile :=
  mkFile (mkvmerge_path f) t (chapters f) (chapter_language f) (tracks f) (_split_options f).

(** [MKVFile.__init__(self, path, title)], run on a world whose [self] is
    the object under construction. *)
Definition MKVFile_init (path_ : option string) (title_ : option string) : M unit :=
  set_self (fun _ => mkFile "mkvmerge" title_ None None [] []) ;;
  (match path_ with
   | Some p =>
       let p' := expanduser env p in
       info_json <- lift (mkvmerge_J p') ;;
       f <- get_self ;;
       (if negb (is_set (title f)) then
          match probe_title info_json with
          | Some t => set_self (set_title (Some t))
          | None => ret tt
          end
        else ret tt) ;;
       for_each (probe_tracks info_json) (import_track p')
   | None => ret tt
   end) ;;
  set_self (set_split_options []).

(** [MKVFile(path)] called from a method of another container: the new
    object is built on the same heap, and [self] is the caller's again
    afterwards. *)
Definition construct_MKVFile (path_ : string) : M MKVFile :=
  fun w =>
    match MKVFile_init (Some path_) None (mkWorld (heap w) (new_MKVFile None)) with
    | (Return _, w') => (Return (self w'), mkWorld (heap w') (self w))
    | (Raise e, w') => (Raise e, mkWorld (heap w') (self w))
    end.

Definition add_file (file : file_arg) : M unit :=
  match file with
  | FilePath p =>
      new_file <- construct_MKVFile p ;;
      set_self (fun f => set_tracks (tracks f ++ tracks new_file) f)
  | FileObject file_ =>
      set_self (fun f => set_tracks (tracks f ++ tracks file_) f)
  | FileOther => raise TypeError
  end.

End Construction.

(** ** Auxiliary notions for the track list *)

(** Where position [k] of the list is read from after the items at [i] and
    [j] were exchanged. *)
Definition swap_index (i j k : nat) : nat :=
  if decide (k = j) then i else if decide (k = i) then j else k.

(** [c1] followed by [c2]. *)
Definition then_ {A B} (c1 : M A) (c2 : M B) : M B := bind c1 (fun _ => c2).

(** The type of the constructor of track objects. *)
Definition track_constructor : Type := string -> option Z -> option string -> outcome MKVTrack.

(** A constructor for the examples: a video track with the given path, id
    and name. *)
Definition plain_constructor : track_constructor :=
  fun p tid name =>
    Return (mkTrack p (match tid with Some z => z | None => 0 end) "video" name None
                    false false false).

(** The object built for a probed track: the result [t] of the constructor
    with the properties present in the probe assigned over it. *)
Definition apply_probe (track : probe_track) (t : MKVTrack) : MKVTrack :=
  let t := match probe_default_track track with
           | Some b => set_default_track b t | None => t end in
  let t := match probe_forced_track track with
           | Some b => set_forced_track b t | None => t end in
  let t := match probe_language track with
           | Some l => set_language (Some l) t | None => t end in
  match probe_track_name track with
  | Some n => set_track_name (Some n) t | None => t
  end.

(** The title of an imported container: the one given, unless it is absent
    or empty and the probed file has one. *)
Definition imported_title (title_ : option string) (info : probe_info) : option string :=
  if is_set title_ then title_
  else match probe_title info with Some t => Some t | None => title_ end.

(** A probe for the examples: every file holds a titled container with two
    tracks. *)
Definition two_track_probe : string -> outcome probe_info :=
  fun _ => Return (mkProbe (Some "Film")
                     [mkProbeTrack 0 (Some true) None (Some "eng") None;
                      mkProbeTrack 1 None (Some true) None (Some "Subs")]).

(** ** Auxiliary notions for patterns *)

(** The characters a pattern can consume at all. *)
Fixpoint chars_of (r : regex) (c : ascii) : bool :=
  match r with
  | Void | Eps => false
  | Chr d => Ascii.eqb c d
  | Range lo hi => in_range_ascii lo hi c
  | Cat r1 r2 | Alt r1 r2 => chars_of r1 c || chars_of r2 c
  | Star r1 => chars_of r1 c
  end.

(** The characters of a timestamp: digits, colon, dot, and the newline
    that may end the string. *)
Definition ts_char (c : ascii) : bool :=
  in_range_ascii "0" "9" c || Ascii.eqb c ":" || Ascii.eqb c "." || Ascii.eqb c "010".

(** ** Auxiliary notions for the kinds of values *)

Definition is_slice (v : pyval) : bool :=
  match v with PSlice _ _ _ => true | _ => false end.

(** The values [len] accepts: strings, lists, tuples and the other sized
    iterables. *)
Definition has_len (v : pyval) : bool :=
  match v with
  | PStr _ | PList _ | PTuple _ | PIterable _ => true
  | _ => false
  end.

(** A size-with-unit value: a size object of [bitmath]. *)
Definition is_size_value (v : pyval) : bool :=
  match v with PBitmath _ => true | _ => false end.

(** ** Auxiliary notions for the arguments of a track *)

(** The arguments of a track that come before the chapter exclusion: name
    flag, language flag, negation of the default flag, forced flag, stream
    selection. *)
Definition track_flags (t : MKVTrack) : list string :=
  let tid := str_of_Z (track_id t) in
  flag_if_set "--track-name" (tid +:+ ":") (track_name t) ++
  flag_if_set "--language" (tid +:+ ":") (language t) ++
  (if default_track t then [] else ["--default-track"; tid +:+ ":0"]) ++
  (if forced_track t then ["--forced-track"; tid +:+ ":1"] else []) ++
  selection_flags t.

(** What stands before the arguments of the tracks in a command, and what
    stands after them. *)
Definition command_head (env : Env) (w : world) (output_file : string) : list string :=
  [mkvmerge_path (self w); "-o"; expanduser env output_file] ++
  flag_if_set "--title" "" (title (self w)).

Definition command_tail (w : world) : list string :=
  flag_if_set "--chapter-language" "" (chapter_language (self w)) ++
  flag_if_set "--chapters" "" (chapters (self w)) ++
  _split_options (self w).
(** * Properties *)

(** ** Index arithmetic *)

Lemma in_range_spec (lo i hi : Z) : in_range lo i hi = true <-> lo <= i < hi.
Proof. unfold in_range. rewrite andb_true_iff, Z.leb_le, Z.ltb_lt. tauto. Qed.

Lemma in_range_false (lo i hi : Z) : in_range lo i hi = false <-> ~ (lo <= i < hi).
Proof. rewrite <- in_range_spec. destruct (in_range lo i hi); split; congruence. Qed.

Lemma norm_index_nonneg (n : nat) (i : Z) :
  0 <= i < Z.of_nat n -> PyList.norm_index n i = Some (Z.to_nat i).
Proof.
  intros [Hlo Hhi]. unfold PyList.norm_index.
  apply Z.leb_le in Hlo. apply Z.ltb_lt in Hhi. now rewrite Hlo, Hhi.
Qed.

Lemma getitem_nonneg {A} (l : list A) (i : Z) :
  0 <= i < Z.of_nat (length l) ->
  exists x, l !! Z.to_nat i = Some x /\ PyList.getitem l i = Return x.
Proof.
  intros Hi. unfold PyList.getitem. rewrite norm_index_nonneg by exact Hi.
  destruct (lookup_lt_is_Some_2 l (Z.to_nat i)) as [x Hx]; [lia|].
  exists x. now rewrite Hx.
Qed.

Lemma setitem_nonneg {A} (l : list A) (i : Z) (x : A) :
  0 <= i < Z.of_nat (length l) ->
  PyList.setitem l i x = Return (<[Z.to_nat i := x]> l).
Proof. intros Hi. unfold PyList.setitem. now rewrite norm_index_nonneg. Qed.

Lemma delitem_nonneg {A} (l : list A) (i : Z) :
  0 <= i < Z.of_nat (length l) ->
  PyList.delitem l i = Return (delete (Z.to_nat i) l).
Proof. intros Hi. unfold PyList.delitem. now rewrite norm_index_nonneg. Qed.

(** An object that is not an integer cannot index [pop]. *)
Lemma pop_object {A} (l : list A) (r : nat) : PyList.pop l (PObj r) = Raise TypeError.
Proof. reflexivity. Qed.

(** ** The state monad: running the list primitives on [self.tracks] *)

Lemma world_eta (w : world) : mkWorld (heap w) (self w) = w.
Proof. now destruct w. Qed.

Lemma run_tracks_getitem (w : world) (i : Z) :
  tracks_getitem i w = (PyList.getitem (tracks (self w)) i, w).
Proof. reflexivity. Qed.

Lemma run_tracks_setitem (w : world) (i : Z) (x : nat) :
  0 <= i < Z.of_nat (length (tracks (self w))) ->
  tracks_setitem i x w =
  (Return tt, mkWorld (heap w) (set_tracks (<[Z.to_nat i := x]> (tracks (self w))) (self w))).
Proof.
  intros Hi. unfold tracks_setitem, bind, get_self, lift, set_self.
  now rewrite setitem_nonneg.
Qed.

Lemma run_tracks_delitem (w : world) (i : Z) :
  0 <= i < Z.of_nat (length (tracks (self w))) ->
  tracks_delitem i w =
  (Return tt, mkWorld (heap w) (set_tracks (delete (Z.to_nat i) (tracks (self w))) (self w))).
Proof.
  intros Hi. unfold tracks_delitem, bind, get_self, lift, set_self.
  now rewrite delitem_nonneg.
Qed.

(** Unfolding the plumbing of the monad. *)
Ltac run_monad :=
  cbv beta iota zeta delta
    [bind tracks_len tracks_getitem tracks_setitem tracks_delitem tracks_pop
     tracks_insert tracks_append get_self set_self ret raise lift].


(** ** Moving a track to the front or to the end *)

(** Handed the index itself, [pop] takes the item out and the insertion at
    position 0 puts it in front of the others, whose order is kept. *)
Lemma pop_index_insert_front {A} (l : list A) (i : Z) :
  0 <= i < Z.of_nat (length l) ->
  exists x, l !! Z.to_nat i = Some x /\
    PyList.pop l (PInt i) = Return (x, delete (Z.to_nat i) l) /\
    PyList.insert (delete (Z.to_nat i) l) 0 x = x :: delete (Z.to_nat i) l.
Proof.
  intros Hi. destruct (lookup_lt_is_Some_2 l (Z.to_nat i)) as [x Hx]; [lia|].
  exists x. split; [exact Hx|]. split.
  - unfold PyList.pop. cbn [int_value]. now rewrite norm_index_nonneg, Hx.
  - unfold PyList.insert. change (0 <=? 0) with true. cbv iota.
    rewrite Z.min_l by lia. reflexivity.
Qed.

Lemma move_track_front_in_range (w : world) (i : Z) :
  0 <= i < tracks_length w -> move_track_front i w = (Raise TypeError, w).
Proof.
  unfold tracks_length. intros Hi.
  destruct (getitem_nonneg (tracks (self w)) i Hi) as (t & _ & Hget).
  apply in_range_spec in Hi.
  unfold move_track_front. run_monad. now rewrite Hi, Hget.
Qed.

Lemma move_track_end_in_range (w : world) (i : Z) :
  0 <= i < tracks_length w -> move_track_end i w = (Raise TypeError, w).
Proof.
  unfold tracks_length. intros Hi.
  destruct (getitem_nonneg (tracks (self w)) i Hi) as (t & _ & Hget).
  apply in_range_spec in Hi.
  unfold move_track_end. run_monad. now rewrite Hi, Hget.
Qed.

(** C1.  For every valid index the two methods do not move anything:
    [self.tracks.pop] is handed the track object found at the index instead
    of the index, so the call stops with a [TypeError] and the track list
    is left as it was. *)
Theorem move_track_front_end_type_error (w : world) (i : Z) :
  0 <= i < tracks_length w ->
  move_track_front i w = (Raise TypeError, w) /\
  move_track_end i w = (Raise TypeError, w).
Proof.
  intros Hi. split.
  - now apply move_track_front_in_range.
  - now apply move_track_end_in_range.
Qed.

Lemma move_track_front_end_type_error_witness :
  move_track_front 1 two_tracks = (Raise TypeError, two_tracks) /\
  move_track_end 1 two_tracks = (Raise TypeError, two_tracks).
Proof. apply (move_track_front_end_type_error two_tracks 1). vm_compute. split; congruence. Defined.

(** ** Index-checked operations *)

Lemma remove_track_ok (w : world) (i : Z) :
  0 <= i < tracks_length w ->
  remove_track i w = (Return tt, with_tracks (delete (Z.to_nat i) (tracks (self w))) w).
Proof.
  unfold tracks_length. intros Hi. unfold remove_track. run_monad.
  rewrite (proj2 (in_range_spec _ _ _) Hi), delitem_nonneg by exact Hi. reflexivity.
Qed.

Lemma replace_track_ok (w : world) (i : Z) (t : nat) :
  0 <= i < tracks_length w ->
  replace_track i t w = (Return tt, with_tracks (<[Z.to_nat i := t]> (tracks (self w))) w).
Proof.
  unfold tracks_length. intros Hi. unfold replace_track. run_monad.
  rewrite (proj2 (in_range_spec _ _ _) Hi), setitem_nonneg by exact Hi. reflexivity.
Qed.

(** The parallel assignment [l[i], l[j] = l[j], l[i]]: both reads, then the
    two writes in order. *)
Lemma swap_body_ok (w : world) (i j : Z) :
  0 <= i < tracks_length w -> 0 <= j < tracks_length w ->
  exists a b,
    tracks (self w) !! Z.to_nat j = Some a /\
    tracks (self w) !! Z.to_nat i = Some b /\
    (a <- tracks_getitem j ;; b <- tracks_getitem i ;;
     tracks_setitem i a ;; tracks_setitem j b) w =
    (Return tt,
     with_tracks (<[Z.to_nat j := b]> (<[Z.to_nat i := a]> (tracks (self w)))) w).
Proof.
  unfold tracks_length. intros Hi Hj.
  destruct (getitem_nonneg (tracks (self w)) j Hj) as (a & Ha & Hga).
  destruct (getitem_nonneg (tracks (self w)) i Hi) as (b & Hb & Hgb).
  exists a, b. split; [exact Ha|]. split; [exact Hb|].
  run_monad. rewrite Hga, Hgb, setitem_nonneg by exact Hi. cbn.
  rewrite setitem_nonneg by (rewrite length_insert; exact Hj). reflexivity.
Qed.

Lemma swap_tracks_ok (w : world) (i j : Z) :
  0 <= i < tracks_length w -> 0 <= j < tracks_length w ->
  exists a b,
    tracks (self w) !! Z.to_nat j = Some a /\
    tracks (self w) !! Z.to_nat i = Some b /\
    swap_tracks i j w =
    (Return tt,
     with_tracks (<[Z.to_nat j := b]> (<[Z.to_nat i := a]> (tracks (self w)))) w).
Proof.
  intros Hi Hj. destruct (swap_body_ok w i j Hi Hj) as (a & b & Ha & Hb & Hrun).
  exists a, b. split; [exact Ha|]. split; [exact Hb|].
  unfold swap_tracks, bind at 1, tracks_len, bind at 1, get_self, ret.
  unfold tracks_length in Hi, Hj.
  rewrite (proj2 (in_range_spec _ _ _) Hi), (proj2 (in_range_spec _ _ _) Hj).
  exact Hrun.
Qed.

Lemma move_track_forward_ok (w : world) (i : Z) :
  0 <= i < tracks_length w - 1 ->
  exists a b,
    tracks (self w) !! Z.to_nat (i + 1) = Some a /\
    tracks (self w) !! Z.to_nat i = Some b /\
    move_track_forward i w =
    (Return tt,
     with_tracks (<[Z.to_nat (i + 1) := b]> (<[Z.to_nat i := a]> (tracks (self w)))) w).
Proof.
  intros Hi.
  destruct (swap_body_ok w i (i + 1)) as (a & b & Ha & Hb & Hrun); [lia | lia |].
  exists a, b. split; [exact Ha|]. split; [exact Hb|].
  unfold move_track_forward, bind at 1, tracks_len, bind at 1, get_self, ret.
  unfold tracks_length in Hi.
  rewrite (proj2 (in_range_spec _ _ _) Hi). exact Hrun.
Qed.

Lemma move_track_backward_ok (w : world) (i : Z) :
  0 < i < tracks_length w ->
  exists a b,
    tracks (self w) !! Z.to_nat (i - 1) = Some a /\
    tracks (self w) !! Z.to_nat i = Some b /\
    move_track_backward i w =
    (Return tt,
     with_tracks (<[Z.to_nat (i - 1) := b]> (<[Z.to_nat i := a]> (tracks (self w)))) w).
Proof.
  intros Hi.
  destruct (swap_body_ok w i (i - 1)) as (a & b & Ha & Hb & Hrun); [lia | lia |].
  exists a, b. split; [exact Ha|]. split; [exact Hb|].
  unfold move_track_backward, bind at 1, tracks_len, bind at 1, get_self, ret.
  unfold tracks_length in Hi.
  destruct Hi as [Hlo Hhi]. apply Z.ltb_lt in Hlo, Hhi. rewrite Hlo, Hhi.
  exact Hrun.
Qed.

(** How [index_checked] is established: the method succeeds or fails
    otherwise on valid positions, and raises [IndexError] without touching
    the world on the others. *)
Lemma index_checked_intro (valid : Prop) (op : M unit) (w : world) :
  (valid -> fst (op w) <> Raise IndexError) ->
  (~ valid -> op w = (Raise IndexError, w)) ->
  valid \/ ~ valid ->
  index_checked valid op w.
Proof.
  intros Hin Hout Hdec. split.
  - split.
    + intros Hraise Hvalid. exact (Hin Hvalid Hraise).
    + intros Hn. now rewrite (Hout Hn).
  - intros Hn. now rewrite (Hout Hn).
Qed.

Lemma range_dec (lo i hi : Z) : lo <= i < hi \/ ~ (lo <= i < hi).
Proof. lia. Qed.

Ltac outside_range H :=
  run_monad; rewrite (proj2 (in_range_false _ _ _) H); reflexivity.

(** C7.  Every index-based track operation raises the out-of-range error
    exactly when its index is outside its valid range -- [0, length) for
    [remove_track], [swap_tracks] (both indices) and [replace_track],
    [0, length - 1) for [move_track_forward], (0, length) for
    [move_track_backward], and [0, length) again for [move_track_front] and
    [move_track_end] -- and in that case the world is unchanged. *)
Theorem index_operations_checked (w : world) (i j : Z) (t : nat) :
  index_checked (0 <= i < tracks_length w) (remove_track i) w /\
  index_checked (0 <= i < tracks_length w /\ 0 <= j < tracks_length w) (swap_tracks i j) w /\
  index_checked (0 <= i < tracks_length w) (replace_track i t) w /\
  index_checked (0 <= i < tracks_length w - 1) (move_track_forward i) w /\
  index_checked (0 < i < tracks_length w) (move_track_backward i) w /\
  index_checked (0 <= i < tracks_length w) (move_track_front i) w /\
  index_checked (0 <= i < tracks_length w) (move_track_end i) w.
Proof.
  repeat match goal with |- _ /\ _ => split end;
    apply index_checked_intro; try apply range_dec; try lia.
  - intros Hi. now rewrite remove_track_ok.
  - intros Hn. unfold remove_track, tracks_length in *. outside_range Hn.
  - intros [Hi Hj]. destruct (swap_tracks_ok w i j Hi Hj) as (a & b & _ & _ & ->).
    discriminate.
  - intros Hn. unfold swap_tracks, tracks_length in *. run_monad.
    destruct (in_range 0 i _) eqn:Ei; [destruct (in_range 0 j _) eqn:Ej|]; try reflexivity.
    apply in_range_spec in Ei, Ej. tauto.
  - intros Hi. now rewrite replace_track_ok.
  - intros Hn. unfold replace_track, tracks_length in *. outside_range Hn.
  - intros Hi. destruct (move_track_forward_ok w i Hi) as (a & b & _ & _ & ->).
    discriminate.
  - intros Hn. unfold move_track_forward, tracks_length in *. outside_range Hn.
  - intros Hi. destruct (move_track_backward_ok w i Hi) as (a & b & _ & _ & ->).
    discriminate.
  - intros Hn. unfold move_track_backward, tracks_length in *. run_monad.
    destruct (0 <? i) eqn:E1; [destruct (i <? _) eqn:E2|]; try reflexivity.
    apply Z.ltb_lt in E1, E2. lia.
  - intros Hi. now rewrite move_track_front_in_range.
  - intros Hn. unfold move_track_front, tracks_length in *. outside_range Hn.
  - intros Hi. now rewrite move_track_end_in_range.
  - intros Hn. unfold move_track_end, tracks_length in *. outside_range Hn.
Qed.

Lemma index_operations_checked_witness :
  fst (remove_track 2 two_tracks) = Raise IndexError /\
  snd (remove_track 2 two_tracks) = two_tracks /\
  fst (move_track_forward 1 two_tracks) = Raise IndexError /\
  fst (move_track_backward 0 two_tracks) = Raise IndexError /\
  fst (swap_tracks 0 1 two_tracks) <> Raise IndexError.
Proof.
  destruct (index_operations_checked two_tracks 2 0 0)
    as ((Hremove & Hkeep) & _).
  destruct (index_operations_checked two_tracks 1 0 0)
    as (_ & _ & _ & (Hforward & _) & _).
  destruct (index_operations_checked two_tracks 0 1 0)
    as (_ & (Hswap & _) & _ & _ & (Hbackward & _) & _).
  unfold tracks_length in *. cbn [two_tracks self tracks length] in *.
  split; [apply Hremove; lia|]. split; [apply Hkeep; lia|].
  split; [apply Hforward; lia|]. split; [apply Hbackward; lia|].
  intros Hraise. apply Hswap in Hraise. lia.
Defined.

(** ** Excluding the internal chapters *)

Lemma set_exclude_chapters_idem (b : bool) (t : MKVTrack) :
  set_exclude_chapters b (set_exclude_chapters b t) = set_exclude_chapters b t.
Proof. reflexivity. Qed.

(** The loop only assigns attributes of track objects: it ends normally,
    [self] is untouched and the heap went through one [alter] per item. *)
Lemma for_each_setattr (l : list nat) (b : bool) (w : world) :
  for_each l (fun track => track_setattr_exclude_chapters track b) w =
  (Return tt,
   mkWorld (foldl (fun h r => alter (set_exclude_chapters b) r h) (heap w) l) (self w)).
Proof.
  revert w. induction l as [|r l IH]; intros w; cbn [for_each foldl].
  - unfold ret. now rewrite world_eta.
  - unfold bind, track_setattr_exclude_chapters at 1. now rewrite IH.
Qed.

Lemma foldl_alter_lookup (f : MKVTrack -> MKVTrack) (l : list nat)
    (h : gmap nat MKVTrack) (r : nat) :
  (forall t, f (f t) = f t) ->
  foldl (fun h r => alter f r h) h l !! r =
  if decide (r ∈ l) then f <$> h !! r else h !! r.
Proof.
  intros Hidem. revert h. induction l as [|q l IH]; intros h; cbn [foldl].
  - now rewrite decide_False by apply not_elem_of_nil.
  - rewrite IH. destruct (decide (q = r)) as [->|Hne].
    + rewrite lookup_alter_eq.
      rewrite (decide_True (P := r ∈ r :: l)) by apply list_elem_of_here.
      destruct (decide (r ∈ l)); [|reflexivity].
      destruct (h !! r); cbn; [now rewrite Hidem | reflexivity].
    + rewrite lookup_alter_ne by exact Hne.
      destruct (decide (r ∈ l)) as [Hin|Hnin].
      * now rewrite decide_True by (now apply list_elem_of_further).
      * rewrite decide_False; [reflexivity|].
        intros Hin. apply elem_of_cons in Hin. destruct Hin; congruence.
Qed.

(** C10.  [exclude_internal_chapters] ends normally; every track object of
    the collection then has [exclude_chapters] true and all its other
    attributes as before; track objects outside the collection are as
    before; and [self] -- the track list with its length and order, title,
    chapters, chapter language and split options -- is unchanged. *)
Theorem exclude_internal_chapters_frame (w : world) :
  fst (exclude_internal_chapters w) = Return tt /\
  self (snd (exclude_internal_chapters w)) = self w /\
  (forall r t, r ∈ tracks (self w) -> heap w !! r = Some t ->
     exists t', heap (snd (exclude_internal_chapters w)) !! r = Some t' /\
       exclude_chapters t' = true /\
       path t' = path t /\ track_id t' = track_id t /\ track_type t' = track_type t /\
       track_name t' = track_name t /\ language t' = language t /\
       default_track t' = default_track t /\ forced_track t' = forced_track t) /\
  (forall r, r ∉ tracks (self w) ->
     heap (snd (exclude_internal_chapters w)) !! r = heap w !! r) /\
  dom (heap (snd (exclude_internal_chapters w))) = dom (heap w).
Proof.
  unfold exclude_internal_chapters, bind, get_self.
  rewrite for_each_setattr. cbn [fst snd self heap].
  split; [reflexivity|]. split; [reflexivity|]. split; [|split].
  - intros r t Hin Ht.
    rewrite foldl_alter_lookup by apply set_exclude_chapters_idem.
    rewrite decide_True by exact Hin. rewrite Ht.
    exists (set_exclude_chapters true t). now repeat split.
  - intros r Hnin.
    rewrite foldl_alter_lookup by apply set_exclude_chapters_idem.
    now rewrite decide_False by exact Hnin.
  - apply set_eq. intros r. rewrite !elem_of_dom.
    rewrite foldl_alter_lookup by apply set_exclude_chapters_idem.
    destruct (decide (r ∈ tracks (self w))); [|reflexivity].
    now rewrite fmap_is_Some.
Qed.

Lemma exclude_internal_chapters_frame_witness :
  (exists t', heap (snd (exclude_internal_chapters shared_tracks)) !! 0%nat = Some t' /\
     exclude_chapters t' = true /\ path t' = "in.mkv" /\ track_name t' = Some "Track1") /\
  heap (snd (exclude_internal_chapters shared_tracks)) !! 2%nat = Some subtitle_track /\
  self (snd (exclude_internal_chapters shared_tracks)) = self shared_tracks.
Proof.
  destruct (exclude_internal_chapters_frame shared_tracks)
    as (_ & Hself & Hin & Hout & _).
  split; [|split].
  - destruct (Hin 0%nat video_track) as (t' & Ht' & He & Hp & _ & _ & Hn & _).
    + cbn. apply list_elem_of_here.
    + reflexivity.
    + exists t'. now rewrite Hp, Hn.
  - rewrite Hout; [reflexivity|].
    cbn. intros Hin2. repeat (apply elem_of_cons in Hin2 as [Hin2|Hin2]; [discriminate|]).
    now apply not_elem_of_nil in Hin2.
  - exact Hself.
Defined.

(** ** Chapter attachment *)

(** The claim that a missing chapters file leaves the container as it was
    fails on the empty container: [self.chapters] is assigned before the
    path is checked. *)
Lemma add_chapters_missing_file_mutates :
  isfile no_files (expanduser no_files "chapters.xml") = false /\
  fst (add_chapters no_files "chapters.xml" None empty_file) = Raise FileNotFoundError /\
  snd (add_chapters no_files "chapters.xml" None empty_file) <> empty_file.
Proof. repeat split. intros H. discriminate H. Qed.

(** After the failed call the container is serialised with the path that
    was refused. *)
Lemma add_chapters_missing_file_serialised :
  fst (add_chapters no_files "missing.xml" None empty_file) = Raise FileNotFoundError /\
  command_args no_files (snd (add_chapters no_files "missing.xml" None empty_file)) "out.mkv"
    = ["mkvmerge"; "-o"; "out.mkv"; "--chapters"; "missing.xml"].
Proof. split; reflexivity. Qed.

(** C3.  When the chapters path does not resolve to an existing file,
    [add_chapters] raises the not-found error, but not before any change:
    [self.chapters] is assigned ahead of the check, so after the exception
    it holds the expanded path that was refused.  Everything else --
    chapter language, title, track list, split options, the track objects
    -- is as before the call. *)
Theorem add_chapters_missing_file (env : Env) (w : world) (p : string) (lang : option string) :
  isfile env (expanduser env p) = false ->
  fst (add_chapters env p lang w) = Raise FileNotFoundError /\
  chapters (self (snd (add_chapters env p lang w))) = Some (expanduser env p) /\
  chapter_language (self (snd (add_chapters env p lang w))) = chapter_language (self w) /\
  title (self (snd (add_chapters env p lang w))) = title (self w) /\
  tracks (self (snd (add_chapters env p lang w))) = tracks (self w) /\
  _split_options (self (snd (add_chapters env p lang w))) = _split_options (self w) /\
  mkvmerge_path (self (snd (add_chapters env p lang w))) = mkvmerge_path (self w) /\
  heap (snd (add_chapters env p lang w)) = heap w.
Proof.
  intros Hmissing. unfold add_chapters. run_monad. rewrite Hmissing. cbn.
  now repeat split.
Qed.

Lemma add_chapters_missing_file_witness :
  fst (add_chapters no_files "chapters.xml" (Some "eng") empty_file) = Raise FileNotFoundError /\
  chapters (self (snd (add_chapters no_files "chapters.xml" (Some "eng") empty_file)))
    = Some "chapters.xml".
Proof.
  destruct (add_chapters_missing_file no_files empty_file "chapters.xml" (Some "eng"))
    as (H1 & H2 & _); [reflexivity|].
  split; [exact H1 | exact H2].
Defined.

(** With the chapters file in place and a non-empty language, the language
    is stored exactly when it occurs somewhere in the text of the reference
    file, and is refused with [ValueError] otherwise. *)
Lemma add_chapters_language (env : Env) (w : world) (p lang text : string) :
  isfile env (expanduser env p) = true ->
  iso639_2_txt env = Some text ->
  lang <> "" ->
  add_chapters env p (Some lang) w =
  if str_contains lang text
  then (Return tt,
        mkWorld (heap w)
          (set_chapter_language (Some lang) (set_chapters (Some (expanduser env p)) (self w))))
  else (Raise ValueError,
        mkWorld (heap w) (set_chapters (Some (expanduser env p)) (self w))).
Proof.
  intros Hfile Htext Hlang. unfold add_chapters, open_iso639_2_read. run_monad.
  rewrite Hfile, Htext. cbn.
  destruct (String.eqb_spec lang ""); [contradiction|]. cbn.
  now destruct (str_contains lang text).
Qed.

Lemma prefix_app (s t : string) : String.prefix s (s +:+ t) = true.
Proof.
  induction s as [|c s IH]; simpl.
  - now destruct t.
  - destruct (ascii_dec c c); [exact IH | congruence].
Qed.

Lemma str_contains_here (sub b : string) : str_contains sub (sub +:+ b) = true.
Proof.
  destruct (sub +:+ b) eqn:E; cbn [str_contains]; rewrite <- E, prefix_app; reflexivity.
Qed.

Lemma str_contains_skip (sub a s : string) :
  str_contains sub s = true -> str_contains sub (a +:+ s) = true.
Proof.
  intros H. induction a as [|c a IH]; [exact H|].
  change (String.prefix sub (String c (a +:+ s)) || str_contains sub (a +:+ s) = true).
  rewrite IH. apply orb_true_r.
Qed.

(** Every code of the reference list occurs in the text of the file. *)
Lemma iso_file_contains_code (codes : list string) (c : string) :
  In c codes -> str_contains c (iso_file_of codes) = true.
Proof.
  induction codes as [|d codes IH]; [intros []|].
  intros [->|Hin]; cbn [iso_file_of].
  - apply str_contains_here.
  - now do 2 apply str_contains_skip; apply IH.
Qed.

(** C5.  With the chapters file in place, a code of the reference list is
    accepted and stored, and a language that occurs nowhere in the text of
    the reference file is refused with [ValueError].  But the test is
    whether the language occurs anywhere in that text: with a reference
    list holding eng, fre and ger, the language ng is none of the codes and
    is accepted and stored all the same. *)
Theorem add_chapters_language_is_substring_test
    (env : Env) (w : world) (p lang : string) (codes : list string) :
  (isfile env (expanduser env p) = true ->
   iso639_2_txt env = Some (iso_file_of codes) ->
   lang <> "" -> In lang codes ->
   fst (add_chapters env p (Some lang) w) = Return tt /\
   chapter_language (self (snd (add_chapters env p (Some lang) w))) = Some lang) /\
  (isfile env (expanduser env p) = true ->
   iso639_2_txt env = Some (iso_file_of codes) ->
   lang <> "" -> str_contains lang (iso_file_of codes) = false ->
   fst (add_chapters env p (Some lang) w) = Raise ValueError /\
   chapter_language (self (snd (add_chapters env p (Some lang) w))) =
     chapter_language (self w)) /\
  (~ In "ng" three_codes /\
   fst (add_chapters env_three_codes "chapters.xml" (Some "ng") empty_file) = Return tt /\
   chapter_language
     (self (snd (add_chapters env_three_codes "chapters.xml" (Some "ng") empty_file)))
     = Some "ng").
Proof.
  split; [|split].
  - intros Hfile Htext Hlang Hin.
    rewrite (add_chapters_language env w p lang _ Hfile Htext Hlang).
    now rewrite iso_file_contains_code.
  - intros Hfile Htext Hlang Hno.
    rewrite (add_chapters_language env w p lang _ Hfile Htext Hlang).
    now rewrite Hno.
  - split; [|split; reflexivity].
    unfold three_codes. cbn. intros [H|[H|[H|[]]]]; discriminate H.
Qed.

Lemma add_chapters_language_is_substring_test_witness :
  (fst (add_chapters env_three_codes "chapters.xml" (Some "fre") empty_file) = Return tt /\
   chapter_language
     (self (snd (add_chapters env_three_codes "chapters.xml" (Some "fre") empty_file)))
     = Some "fre") /\
  (fst (add_chapters env_three_codes "chapters.xml" (Some "spa") empty_file)
     = Raise ValueError).
Proof.
  split.
  - apply (add_chapters_language_is_substring_test
             env_three_codes empty_file "chapters.xml" "fre" three_codes).
    + reflexivity.
    + reflexivity.
    + discriminate.
    + cbn. tauto.
  - apply (add_chapters_language_is_substring_test
             env_three_codes empty_file "chapters.xml" "spa" three_codes).
    + reflexivity.
    + reflexivity.
    + discriminate.
    + reflexivity.
Defined.

(** ** Split by size and by duration *)

Lemma split_size_rejects (w : world) (size : pyval) :
  isinstance_int size = false -> from_bitmath size = false ->
  split_size size w = (Raise TypeError, w).
Proof. intros Hint Hbit. destruct size; try discriminate; reflexivity. Qed.

(** C9.  [split_size(700_000_000)] sets the directive [size:700000000];
    [split_duration("01:30:00")] sets [duration:01:30:00] and
    [split_duration(90)] sets [duration:90s]; and [split_size] refuses with
    [TypeError], without touching the container, every value that is
    neither an integer nor from the [bitmath] module.  But the test it makes
    is on the module alone, so an object of [bitmath] that is no size is
    not refused as a non-numeric value: for the class [bitmath.MiB], which
    is neither an integer nor a size, the call ends normally and the text
    of its [bytes] property object becomes the directive; an object of the
    module without [bytes] fails with [AttributeError] instead. *)
Theorem split_size_duration_examples (w : world) (size : pyval) (text : string) :
  (fst (split_size (PInt 700000000) w) = Return tt /\
   _split_options (self (snd (split_size (PInt 700000000) w)))
     = ["--split"; "size:700000000"]) /\
  (isinstance_int size = false -> from_bitmath size = false ->
   split_size size w = (Raise TypeError, w)) /\
  (fst (split_duration (PStr "01:30:00") w) = Return tt /\
   _split_options (self (snd (split_duration (PStr "01:30:00") w)))
     = ["--split"; "duration:01:30:00"]) /\
  (fst (split_duration (PInt 90) w) = Return tt /\
   _split_options (self (snd (split_duration (PInt 90) w)))
     = ["--split"; "duration:90s"]) /\
  (isinstance_int (PBitmathOther (Some text)) = false /\
   is_size_value (PBitmathOther (Some text)) = false /\
   split_size (PBitmathOther (Some text)) w
     = (Return tt, with_split_options ["--split"; "size:" +:+ text] w)) /\
  split_size (PBitmathOther None) w = (Raise AttributeError, w).
Proof.
  split; [|split; [|split; [|split; [|split]]]].
  - split; vm_compute; reflexivity.
  - apply split_size_rejects.
  - split; vm_compute; reflexivity.
  - split; vm_compute; reflexivity.
  - repeat split.
  - reflexivity.
Qed.

Lemma split_size_duration_examples_witness :
  split_size (PStr "700MB") empty_file = (Raise TypeError, empty_file).
Proof.
  apply (split_size_duration_examples empty_file (PStr "700MB") ""); reflexivity.
Defined.

(** ** Strings *)

Lemma str_app_cons (x : ascii) (a b : string) : String x a +:+ b = String x (a +:+ b).
Proof. reflexivity. Qed.

Lemma str_app_assoc (a b c : string) : (a +:+ b) +:+ c = a +:+ (b +:+ c).
Proof.
  induction a as [|x a IH]; [reflexivity|]. now rewrite !str_app_cons, IH.
Qed.

Lemma str_app_nil_r (a : string) : a +:+ "" = a.
Proof.
  induction a as [|x a IH]; [reflexivity|]. now rewrite str_app_cons, IH.
Qed.

Lemma str_init_cons (c1 c2 : ascii) (s : string) :
  str_init (String c1 (String c2 s)) = String c1 (str_init (String c2 s)).
Proof. reflexivity. Qed.

(** [(s + c)[:-1] == s] for a single character [c]. *)
Lemma str_init_snoc (s : string) (c : ascii) : str_init (s +:+ String c "") = s.
Proof.
  induction s as [|x s IH]; [reflexivity|].
  destruct s as [|y s]; [reflexivity|].
  rewrite !str_app_cons in *. rewrite str_init_cons. now rewrite IH.
Qed.

(** Joining with commas is terminating each item with a comma and dropping
    the last one. *)
Lemma comma_terminated_join (x : string) (l : list string) :
  comma_terminated (x :: l) = String.concat "," (x :: l) +:+ ",".
Proof.
  revert x. induction l as [|y l IH]; intros x.
  - cbn [comma_terminated String.concat]. reflexivity.
  - change (x +:+ "," +:+ comma_terminated (y :: l)
            = (x +:+ "," +:+ String.concat "," (y :: l)) +:+ ",").
    now rewrite IH, !str_app_assoc.
Qed.

Lemma str_init_comma_terminated (acc x : string) (l : list string) :
  str_init (acc +:+ comma_terminated (x :: l)) = acc +:+ String.concat "," (x :: l).
Proof.
  rewrite comma_terminated_join, <- str_app_assoc. apply str_init_snoc.
Qed.

(** ** The loop of split_timestamps *)

Lemma timestamps_loop_accepts (l : list pyval) (acc : string) :
  forallb valid_ts l = true ->
  timestamps_loop l acc = Return (acc +:+ comma_terminated (List.map render_ts l)).
Proof.
  revert acc. induction l as [|ts l IH]; intros acc Hall.
  - cbn. now rewrite str_app_nil_r.
  - cbn [forallb] in Hall. apply andb_true_iff in Hall as [Hts Hall].
    cbn [timestamps_loop List.map comma_terminated].
    unfold valid_ts in Hts. unfold render_ts at 1.
    destruct (isinstance_int ts) eqn:Hint.
    + rewrite IH by exact Hall. now rewrite !str_app_assoc.
    + cbn [orb] in Hts. rewrite Hts.
      destruct ts; try discriminate Hts. cbn [str_add_l].
      rewrite IH by exact Hall. now rewrite !str_app_assoc.
Qed.

Lemma timestamps_loop_rejects (l : list pyval) (acc : string) :
  forallb valid_ts l = false ->
  timestamps_loop l acc = Raise TypeError \/ timestamps_loop l acc = Raise ValueError.
Proof.
  revert acc. induction l as [|ts l IH]; intros acc Hall; [discriminate|].
  cbn [forallb] in Hall. cbn [timestamps_loop].
  unfold valid_ts in Hall.
  destruct (isinstance_int ts) eqn:Hint.
  - cbn [orb andb] in Hall. now apply IH.
  - cbn [orb] in Hall.
    destruct (isinstance_str ts && truthy (check_ts ts false)) eqn:Hstr.
    + destruct ts; try discriminate Hstr. cbn [str_add_l]. now apply IH.
    + cbn [negb andb]. destruct (negb (isinstance_str ts)); auto.
Qed.

(** ** Timestamps *)

(** What [check_ts] returns on a few strings: hours are optional, a lone
    number is not a timestamp, nine decimals at most, and a newline ending
    the string is let through by [$]. *)
Example check_ts_examples :
  List.map (fun s => check_ts (PStr s) false)
    ["01:30:00"; "1:2"; "00:01:00.123456789"; "1:2" +:+ newline;
     "90"; "abc"; "1:2:3:4"; "00:01:00.1234567890"; "+00:01:00"; ""]
  = [PBool true; PBool true; PBool true; PBool true;
     PBool false; PBool false; PBool false; PBool false; PBool false; PBool false].
Proof. vm_compute. reflexivity. Qed.

(** With [plus] the signed timestamp is recognised, and [None] comes
    back. *)
Example check_ts_plus_example :
  check_ts (PStr "+00:01:00") true = PNone /\
  check_ts (PStr "00:01:00") true = PBool true /\
  check_ts (PInt 90) true = PBool true /\
  check_ts PNone true = PBool false.
Proof. vm_compute. repeat split. Qed.

(** ** The loop of split_parts *)

(** What passes [check_ts]: an integer, or a string matching the pattern
    without the sign.  The branch of the sign returns [None]. *)
Lemma check_ts_truthy (v : pyval) (plus : bool) :
  truthy (check_ts v plus) = true ->
  isinstance_int v = true \/
  exists s, v = PStr s /\ re_match_anchored ts_regex s = true.
Proof.
  destruct v; cbn; try discriminate; auto.
  destruct (re_match_anchored ts_regex s) eqn:E; [eauto|].
  destruct (plus && _); discriminate.
Qed.

Lemma check_ts_plus_irrelevant (v : pyval) (plus : bool) :
  truthy (check_ts v plus) = truthy (check_ts v false).
Proof.
  destruct v; try reflexivity. cbn.
  destruct (re_match_anchored ts_regex s); [reflexivity|].
  now destruct (plus && _).
Qed.

(** Appending a member of a pair that is absent or passed [check_ts]. *)
Lemma append_member (v : pyval) (plus : bool) (acc : string) :
  is_None v || truthy (check_ts v plus) = true ->
  (if isinstance_int v then Return (acc +:+ (str_int v +:+ "s"))
   else if negb (is_None v) then str_add acc v
   else Return acc) = Return (acc +:+ render_ts v).
Proof.
  intros Hv. unfold render_ts. destruct (isinstance_int v) eqn:Hint; [reflexivity|].
  destruct v; try discriminate; cbn; try reflexivity.
  now rewrite str_app_nil_r.
Qed.

Lemma parts_step_pair (p0 p1 : pyval) (acc : string) :
  parts_step (PTuple [p0; p1]) acc = parts_step (PList [p0; p1]) acc.
Proof. reflexivity. Qed.

Lemma parts_step_accepts (pair_ : pyval) (acc : string) :
  valid_pair pair_ = true ->
  parts_step pair_ acc = Return (acc +:+ render_pair pair_ +:+ ",").
Proof.
  assert (Hlist : forall p0 p1,
    valid_pair (PList [p0; p1]) = true ->
    parts_step (PList [p0; p1]) acc
    = Return (acc +:+ render_pair (PList [p0; p1]) +:+ ",")).
  { intros p0 p1 Hv. cbn [valid_pair] in Hv.
    apply andb_true_iff in Hv as [Hv Hne]. apply andb_true_iff in Hv as [H0 H1].
    cbn [parts_step render_pair].
    replace (negb (is_None p0) && negb (truthy (check_ts p0 true))) with false
      by (now rewrite <- negb_orb, H0).
    replace (negb (is_None p1) && negb (truthy (check_ts p1 false))) with false
      by (now rewrite <- negb_orb, H1).
    apply negb_true_iff in Hne. rewrite Hne.
    rewrite (append_member p0 true acc H0), (append_member p1 false _ H1).
    now rewrite !str_app_assoc. }
  destruct pair_ as [| | | |l|l| | | | |]; try discriminate;
    destruct l as [|p0 [|p1 [|p2 l]]]; try discriminate; intros Hv.
  - now apply Hlist.
  - rewrite parts_step_pair. now apply Hlist.
Qed.

Lemma parts_step_rejects (pair_ : pyval) (acc : string) :
  valid_pair pair_ = false -> parts_step pair_ acc = Raise ValueError.
Proof.
  assert (Hlist : forall p0 p1,
    valid_pair (PList [p0; p1]) = false ->
    parts_step (PList [p0; p1]) acc = Raise ValueError).
  { intros p0 p1 Hv. cbn [valid_pair] in Hv. cbn [parts_step].
    rewrite <- !negb_orb.
    destruct (is_None p0 || truthy (check_ts p0 true)); [|reflexivity].
    destruct (is_None p1 || truthy (check_ts p1 false)); [|reflexivity].
    cbn [andb negb] in *. apply negb_false_iff in Hv. now rewrite Hv. }
  destruct pair_ as [| | | |l|l| | | | |]; try reflexivity;
    destruct l as [|p0 [|p1 [|p2 l]]]; try reflexivity; intros Hv.
  - now apply Hlist.
  - rewrite parts_step_pair. now apply Hlist.
Qed.

Lemma parts_loop_accepts (l : list pyval) (acc : string) :
  forallb valid_pair l = true ->
  parts_loop l acc = Return (acc +:+ comma_terminated (List.map render_pair l)).
Proof.
  revert acc. induction l as [|p l IH]; intros acc Hall.
  - cbn. now rewrite str_app_nil_r.
  - cbn [forallb] in Hall. apply andb_true_iff in Hall as [Hp Hall].
    cbn [parts_loop List.map comma_terminated].
    rewrite parts_step_accepts by exact Hp. rewrite IH by exact Hall.
    now rewrite !str_app_assoc.
Qed.

Lemma parts_loop_rejects (l : list pyval) (acc : string) :
  forallb valid_pair l = false -> parts_loop l acc = Raise ValueError.
Proof.
  revert acc. induction l as [|p l IH]; intros acc Hall; [discriminate|].
  cbn [forallb] in Hall. cbn [parts_loop].
  destruct (valid_pair p) eqn:Hp.
  - rewrite parts_step_accepts by exact Hp. now apply IH.
  - now rewrite parts_step_rejects.
Qed.

(** ** One directive at a time *)

Lemma prefixed_not_flag (c : ascii) (s : string) :
  c <> "-"%char -> String c s <> "--split".
Proof. intros Hc H. injection H as H _. contradiction. Qed.

Lemma str_init_prefixed_not_flag (c1 c2 : ascii) (s : string) :
  c1 <> "-"%char -> str_init (String c1 (String c2 s)) <> "--split".
Proof. intros Hc. rewrite str_init_cons. now apply prefixed_not_flag. Qed.

Lemma length_test_cons {A} (x : A) (l : list A) :
  (Z.of_nat (length (x :: l)) =? 0) = false.
Proof. apply Z.eqb_neq. cbn [length]. lia. Qed.

Lemma split_size_effect (size : pyval) : split_effect (split_size size).
Proof.
  destruct size as [| b | z | s | l | l | b | r | a b c | l | [b|]];
    try (apply (Refused _ TypeError); reflexivity);
    try (apply (Refused _ AttributeError); reflexivity);
    (eapply Directive; [|reflexivity]); now apply (prefixed_not_flag "s").
Qed.

Lemma split_duration_effect (duration : pyval) : split_effect (split_duration duration).
Proof.
  destruct duration;
    try (apply (Refused _ TypeError); reflexivity);
    try ((eapply Directive; [|reflexivity]); now apply (prefixed_not_flag "d")).
  unfold split_duration. cbn [isinstance_str isinstance_int andb].
  destruct (truthy (check_ts (PStr s) false)).
  - (eapply Directive; [|reflexivity]). now apply (prefixed_not_flag "d").
  - apply (Refused _ TypeError). reflexivity.
Qed.

Lemma split_timestamps_effect (timestamps : list pyval) :
  split_effect (split_timestamps timestamps).
Proof.
  unfold split_timestamps. destruct timestamps as [|ts l].
  { apply (Refused _ ValueError). reflexivity. }
  rewrite length_test_cons.
  destruct (forallb valid_ts (flatten (PTuple (ts :: l)))) eqn:Hall.
  - eapply Directive; [|intros w; run_monad; rewrite timestamps_loop_accepts by exact Hall;
                         reflexivity].
    now apply (str_init_prefixed_not_flag "t" "i").
  - destruct (timestamps_loop_rejects _ "timestamps:" Hall) as [H|H].
    + apply (Refused _ TypeError). intros w. run_monad. now rewrite H.
    + apply (Refused _ ValueError). intros w. run_monad. now rewrite H.
Qed.

Lemma split_parts_effect (parts : pyval) : split_effect (split_parts parts).
Proof.
  unfold split_parts.
  destruct (py_items parts) as [items|e] eqn:Hitems.
  2:{ apply (Refused _ e). intros w. run_monad. reflexivity. }
  destruct items as [|p l].
  { apply (Refused _ ValueError). reflexivity. }
  destruct (forallb valid_pair (p :: l)) eqn:Hall.
  - eapply Directive; [|intros w; run_monad; rewrite length_test_cons;
                         rewrite parts_loop_accepts by exact Hall; reflexivity].
    now apply (str_init_prefixed_not_flag "p" "a").
  - apply (Refused _ ValueError). intros w. run_monad.
    now rewrite length_test_cons, parts_loop_rejects.
Qed.

Lemma run_call_effect (c : split_call) : split_effect (run_call c).
Proof.
  destruct c; cbn [run_call].
  - apply split_size_effect.
  - apply split_duration_effect.
  - apply split_timestamps_effect.
  - apply split_parts_effect.
Qed.

Lemma split_flags_directive (d : string) (w : world) :
  d <> "--split" -> split_flags (with_split_options ["--split"; d] w) = 1%nat.
Proof.
  intros Hd. unfold split_flags. cbn.
  destruct (String.eqb_spec d "--split"); [contradiction | reflexivity].
Qed.

Lemma run_calls_flags (cs : list split_call) (w : world) :
  (split_flags w <= 1)%nat -> (split_flags (run_calls cs w) <= 1)%nat.
Proof.
  revert w. induction cs as [|c cs IH]; intros w Hw; [exact Hw|].
  cbn [run_calls]. apply IH.
  destruct (run_call_effect c) as [e Hraise | d Hd Hset].
  - now rewrite Hraise.
  - rewrite Hset. cbn [snd]. now rewrite split_flags_directive.
Qed.

(** C8.  When a call of a split method ends normally on a container, the
    split options are exactly [--split] followed by one directive, the one
    this call sets on any container, whatever the split options were.  And
    however many split calls a fresh container goes through, accepted or
    refused, its options never hold more than one [--split]. *)
Theorem split_call_replaces_directive (c : split_call) (cs : list split_call) (w w0 : world) :
  (fst (run_call c w) = Return tt ->
   exists d, d <> "--split" /\
     _split_options (self (snd (run_call c w))) = ["--split"; d] /\
     forall w', run_call c w' = (Return tt, with_split_options ["--split"; d] w')) /\
  (_split_options (self w0) = [] ->
   (split_flags (run_calls cs w0) <= 1)%nat).
Proof.
  split.
  - intros Hok. destruct (run_call_effect c) as [e Hraise | d Hd Hset].
    + rewrite Hraise in Hok. discriminate.
    + exists d. split; [exact Hd|]. split; [now rewrite Hset | exact Hset].
  - intros Hfresh. apply run_calls_flags. unfold split_flags. rewrite Hfresh. cbn. lia.
Qed.

Lemma split_call_replaces_directive_witness :
  (exists d, d <> "--split" /\
     _split_options (self (snd (run_call (SplitSize (PInt 5)) split_before)))
       = ["--split"; d] /\
     forall w', run_call (SplitSize (PInt 5)) w'
                = (Return tt, with_split_options ["--split"; d] w')) /\
  (split_flags
     (run_calls [SplitDuration (PInt 90); SplitParts (PList []); SplitSize (PInt 5)]
        empty_file) <= 1)%nat.
Proof.
  split.
  - apply (split_call_replaces_directive (SplitSize (PInt 5)) [] split_before empty_file).
    reflexivity.
  - apply (split_call_replaces_directive (SplitSize (PInt 5))
             [SplitDuration (PInt 90); SplitParts (PList []); SplitSize (PInt 5)]
             split_before empty_file).
    reflexivity.
Defined.

(** ** Patterns that match nothing *)

Lemma is_void_not_nullable (r : regex) : is_void r = true -> nullable r = false.
Proof.
  induction r; cbn; try discriminate; try reflexivity.
  - intros [H|H]%orb_true_iff.
    + now rewrite IHr1.
    + rewrite IHr2 by exact H. apply andb_false_r.
  - intros [H1 H2]%andb_true_iff. now rewrite IHr1, IHr2.
Qed.

Lemma is_void_deriv (c : ascii) (r : regex) : is_void r = true -> is_void (deriv c r) = true.
Proof.
  induction r; cbn; try discriminate; try reflexivity.
  - intros [H|H]%orb_true_iff.
    + rewrite (is_void_not_nullable r1 H). cbn. now rewrite IHr1.
    + destruct (nullable r1); cbn; rewrite H, ?IHr2 by exact H;
        now rewrite ?orb_true_r.
  - intros [H1 H2]%andb_true_iff. now rewrite IHr1, IHr2.
Qed.

Lemma is_void_matches (r : regex) (s : string) : is_void r = true -> matches r s = false.
Proof.
  revert r. induction s as [|c s IH]; intros r Hr; cbn [matches].
  - now apply is_void_not_nullable.
  - apply IH. now apply is_void_deriv.
Qed.

(** The pattern without the sign matches no string that starts with
    ['+']. *)
Lemma ts_regex_rejects_plus (s : string) :
  re_match_anchored ts_regex (String "+" s) = false.
Proof.
  unfold re_match_anchored. cbn [matches]. apply is_void_matches.
  vm_compute. reflexivity.
Qed.

(** So [check_ts] never returns a true object for such a string, with or
    without [plus]. *)
Lemma check_ts_plus_falsy (s : string) (plus : bool) :
  truthy (check_ts (PStr (String "+" s)) plus) = false.
Proof.
  cbn [check_ts]. rewrite ts_regex_rejects_plus.
  now destruct (plus && _).
Qed.

(** ** Split by parts *)

(** One pair that does not pass the checks is enough for the whole call to
    be refused with [ValueError], the container staying as it was. *)
Lemma split_parts_rejects_pair (w : world) (parts : pyval) (items : list pyval) (pair_ : pyval) :
  py_items parts = Return items ->
  In pair_ items ->
  valid_pair pair_ = false ->
  split_parts parts w = (Raise ValueError, w).
Proof.
  intros Hitems Hin Hbad. unfold split_parts. run_monad. rewrite Hitems.
  destruct items as [|p l]; [destruct Hin|].
  rewrite length_test_cons, parts_loop_rejects; [reflexivity|].
  apply not_true_is_false. intros Hall.
  rewrite forallb_forall in Hall. specialize (Hall _ Hin). congruence.
Qed.

Lemma valid_pair_is_pair (pair_ p0 p1 : pyval) :
  is_pair pair_ p0 p1 ->
  valid_pair pair_ =
  (is_None p0 || truthy (check_ts p0 true)) &&
  (is_None p1 || truthy (check_ts p1 false)) &&
  negb (py_eq p0 p1).
Proof. now intros [->| ->]. Qed.

(** C2.  [split_parts] refuses every pair whose end carries a ['+'] and
    every pair whose start equals its end.  But it also refuses every pair
    whose start carries a ['+']: for such a string [check_ts] returns
    [None], which the caller reads as false.  The pair
    [("+00:01:00", "00:02:00")], accepted without the sign and matched by
    the pattern with the sign, is refused with [ValueError]. *)
Theorem split_parts_plus_and_equal
    (w : world) (parts : pyval) (items : list pyval) (pair_ p0 p1 : pyval) (s : string) :
  (re_match_anchored ts_plus_regex "+00:01:00" = true /\
   fst (split_parts (PList [PTuple [PStr "00:01:00"; PStr "00:02:00"]]) w) = Return tt /\
   split_parts (PList [PTuple [PStr "+00:01:00"; PStr "00:02:00"]]) w
     = (Raise ValueError, w)) /\
  (py_items parts = Return items -> In pair_ items ->
   is_pair pair_ (PStr (String "+" s)) p1 ->
   split_parts parts w = (Raise ValueError, w)) /\
  (py_items parts = Return items -> In pair_ items ->
   is_pair pair_ p0 (PStr (String "+" s)) ->
   split_parts parts w = (Raise ValueError, w)) /\
  (py_items parts = Return items -> In pair_ items ->
   is_pair pair_ p0 p1 -> py_eq p0 p1 = true ->
   split_parts parts w = (Raise ValueError, w)).
Proof.
  split; [|split; [|split]].
  - split; [vm_compute; reflexivity|]. split; reflexivity.
  - intros Hitems Hin Hpair. apply (split_parts_rejects_pair w parts items pair_ Hitems Hin).
    rewrite (valid_pair_is_pair _ _ _ Hpair), check_ts_plus_falsy. reflexivity.
  - intros Hitems Hin Hpair. apply (split_parts_rejects_pair w parts items pair_ Hitems Hin).
    rewrite (valid_pair_is_pair _ _ _ Hpair), check_ts_plus_falsy.
    cbn [is_None orb]. now rewrite andb_false_r.
  - intros Hitems Hin Hpair Heq.
    apply (split_parts_rejects_pair w parts items pair_ Hitems Hin).
    rewrite (valid_pair_is_pair _ _ _ Hpair), Heq. apply andb_false_r.
Qed.

Lemma split_parts_plus_and_equal_witness :
  split_parts (PList [PTuple [PInt 0; PInt 10]; PTuple [PStr "+1:00"; PStr "2:00"]]) empty_file
    = (Raise ValueError, empty_file) /\
  split_parts (PList [PTuple [PStr "1:00"; PStr "+2:00"]]) empty_file
    = (Raise ValueError, empty_file) /\
  split_parts (PList [PList [PInt 1; PBool true]]) empty_file
    = (Raise ValueError, empty_file).
Proof.
  split; [|split].
  - destruct (split_parts_plus_and_equal empty_file
             (PList [PTuple [PInt 0; PInt 10]; PTuple [PStr "+1:00"; PStr "2:00"]])
             [PTuple [PInt 0; PInt 10]; PTuple [PStr "+1:00"; PStr "2:00"]]
             (PTuple [PStr "+1:00"; PStr "2:00"]) PNone (PStr "2:00") "1:00")
      as (_ & Hstart & _ & _).
    apply Hstart.
    + reflexivity.
    + right. left. reflexivity.
    + right. reflexivity.
  - destruct (split_parts_plus_and_equal empty_file
             (PList [PTuple [PStr "1:00"; PStr "+2:00"]])
             [PTuple [PStr "1:00"; PStr "+2:00"]]
             (PTuple [PStr "1:00"; PStr "+2:00"]) (PStr "1:00") PNone "2:00")
      as (_ & _ & Hend & _).
    apply Hend.
    + reflexivity.
    + left. reflexivity.
    + right. reflexivity.
  - destruct (split_parts_plus_and_equal empty_file
             (PList [PList [PInt 1; PBool true]])
             [PList [PInt 1; PBool true]]
             (PList [PInt 1; PBool true]) (PInt 1) (PBool true) "")
      as (_ & _ & _ & Hequal).
    apply Hequal.
    + reflexivity.
    + left. reflexivity.
    + left. reflexivity.
    + reflexivity.
Defined.

(** ** Split by timestamps *)

(** Induction on values, through the items of lists and tuples. *)
Lemma pyval_nested_ind (P : pyval -> Prop) :
  P PNone -> (forall b, P (PBool b)) -> (forall z, P (PInt z)) -> (forall s, P (PStr s)) ->
  (forall l, Forall P l -> P (PList l)) -> (forall l, Forall P l -> P (PTuple l)) ->
  (forall b, P (PBitmath b)) -> (forall r, P (PObj r)) ->
  (forall a b c, P (PSlice a b c)) -> (forall l, Forall P l -> P (PIterable l)) ->
  (forall b, P (PBitmathOther b)) ->
  forall v, P v.
Proof.
  intros HNone HBool HInt HStr HList HTuple HBit HObj HSlice HIter HOther.
  fix IH 1. intros [| b | z | s | l | l | b | r | a b c | l | b].
  - exact HNone.
  - apply HBool.
  - apply HInt.
  - apply HStr.
  - apply HList. revert l. fix IHl 1. intros [|x l]; constructor; [apply IH | apply IHl].
  - apply HTuple. revert l. fix IHl 1. intros [|x l]; constructor; [apply IH | apply IHl].
  - apply HBit.
  - apply HObj.
  - apply HSlice.
  - apply HIter. revert l. fix IHl 1. intros [|x l]; constructor; [apply IH | apply IHl].
  - apply HOther.
Qed.

Lemma flatten_items (l : list pyval) :
  flatten (PList l) = concat (List.map flatten l) /\
  flatten (PTuple l) = concat (List.map flatten l).
Proof. split; reflexivity. Qed.

(** Flattening keeps the leaves in their left-to-right order: the leaves of
    a sequence are those of its first item followed by those of the
    rest. *)
Lemma flatten_app (a b : list pyval) :
  flatten (PTuple (a ++ b)) = flatten (PTuple a) ++ flatten (PTuple b) /\
  flatten (PList (a ++ b)) = flatten (PList a) ++ flatten (PList b).
Proof.
  cbn [flatten]. rewrite List.map_app, concat_app. split; reflexivity.
Qed.

Lemma flatten_leaf (v : pyval) :
  isinstance_list_tuple v = false -> flatten v = [v].
Proof. destruct v; try discriminate; reflexivity. Qed.

(** The result is flat: no list or tuple is left among the leaves. *)
Lemma flatten_flat (v : pyval) :
  Forall (fun x => isinstance_list_tuple x = false) (flatten v).
Proof.
  induction v as [| b | z | s | l IH | l IH | b | r | a b c | l IH | b]
    using pyval_nested_ind;
    try (repeat constructor).
  - cbn [flatten]. induction IH as [|x l Hx _ IHl]; [constructor|].
    cbn [List.map concat]. apply Forall_app. split; assumption.
  - cbn [flatten]. induction IH as [|x l Hx _ IHl]; [constructor|].
    cbn [List.map concat]. apply Forall_app. split; assumption.
Qed.

Lemma split_timestamps_accepts (w : world) (timestamps : list pyval) :
  timestamps <> [] ->
  forallb valid_ts (flatten (PTuple timestamps)) = true ->
  split_timestamps timestamps w =
  (Return tt,
   with_split_options
     ["--split";
      str_init ("timestamps:" +:+
                comma_terminated (List.map render_ts (flatten (PTuple timestamps))))] w).
Proof.
  intros Hne Hall. unfold split_timestamps. destruct timestamps as [|ts l]; [congruence|].
  rewrite length_test_cons. run_monad.
  now rewrite timestamps_loop_accepts by exact Hall.
Qed.

Lemma split_timestamps_rejects (w : world) (timestamps : list pyval) :
  forallb valid_ts (flatten (PTuple timestamps)) = false ->
  split_timestamps timestamps w = (Raise TypeError, w) \/
  split_timestamps timestamps w = (Raise ValueError, w).
Proof.
  intros Hall. unfold split_timestamps. destruct timestamps as [|ts l]; [now right|].
  rewrite length_test_cons. run_monad.
  destruct (timestamps_loop_rejects _ "timestamps:" Hall) as [-> | ->]; auto.
Qed.

(** C4.  [split_timestamps] refuses a call without arguments and every call
    with a leaf that is a string not matching the timestamp pattern, such
    as ["abc"]; flattening keeps the leaves in their order and leaves no
    list behind; an accepted call with at least one leaf sets the directive
    made of the leaves in that order, joined by commas.  But arguments that
    flatten to no leaf at all are not refused: the call with one empty list
    ends normally and sets the directive [timestamps], the colon having
    been cut off in place of a last comma. *)
Theorem split_timestamps_flatten_and_reject
    (w : world) (timestamps a b : list pyval) (s : string) :
  split_timestamps [] w = (Raise ValueError, w) /\
  (flatten (PTuple [PList []]) = [] /\
   split_timestamps [PList []] w
     = (Return tt, with_split_options ["--split"; "timestamps"] w)) /\
  (In (PStr s) (flatten (PTuple timestamps)) ->
   re_match_anchored ts_regex s = false ->
   split_timestamps timestamps w = (Raise TypeError, w) \/
   split_timestamps timestamps w = (Raise ValueError, w)) /\
  (re_match_anchored ts_regex "abc" = false /\
   split_timestamps [PStr "abc"] w = (Raise ValueError, w)) /\
  (flatten (PTuple (a ++ b)) = flatten (PTuple a) ++ flatten (PTuple b) /\
   flatten (PList (a ++ b)) = flatten (PList a) ++ flatten (PList b) /\
   Forall (fun x => isinstance_list_tuple x = false) (flatten (PTuple timestamps))) /\
  (fst (split_timestamps timestamps w) = Return tt ->
   flatten (PTuple timestamps) <> [] ->
   forallb valid_ts (flatten (PTuple timestamps)) = true /\
   _split_options (self (snd (split_timestamps timestamps w))) =
     ["--split";
      "timestamps:" +:+
      String.concat "," (List.map render_ts (flatten (PTuple timestamps)))]).
Proof.
  split; [reflexivity|]. split; [split; reflexivity|].
  split; [|split; [split; reflexivity|]]; [|split].
  - intros Hin Hbad. apply split_timestamps_rejects.
    apply not_true_is_false. intros Hall.
    rewrite forallb_forall in Hall. specialize (Hall _ Hin).
    unfold valid_ts in Hall. cbn in Hall. now rewrite Hbad in Hall.
  - split; [apply flatten_app|]. split; [apply flatten_app | apply flatten_flat].
  - intros Hok Hleaves.
    destruct (forallb valid_ts (flatten (PTuple timestamps))) eqn:Hall.
    + split; [reflexivity|].
      assert (Hne : timestamps <> []) by (intros ->; now apply Hleaves).
      rewrite (split_timestamps_accepts w timestamps Hne Hall). cbn [snd].
      destruct (flatten (PTuple timestamps)) as [|x l]; [congruence|].
      cbn [List.map]. now rewrite str_init_comma_terminated.
    + destruct (split_timestamps_rejects w timestamps Hall) as [H|H];
        rewrite H in Hok; discriminate.
Qed.

Lemma split_timestamps_flatten_and_reject_witness :
  (split_timestamps [PInt 5; PList [PStr "1:00"; PTuple [PStr "abc"]]] empty_file
     = (Raise TypeError, empty_file) \/
   split_timestamps [PInt 5; PList [PStr "1:00"; PTuple [PStr "abc"]]] empty_file
     = (Raise ValueError, empty_file)) /\
  _split_options
    (self (snd (split_timestamps [PInt 5; PList [PStr "1:00"; PTuple [PInt 90]]] empty_file)))
    = ["--split"; "timestamps:5s,1:00,90s"].
Proof.
  split.
  - destruct (split_timestamps_flatten_and_reject empty_file
                [PInt 5; PList [PStr "1:00"; PTuple [PStr "abc"]]] [] [] "abc")
      as (_ & _ & Hreject & _).
    apply Hreject.
    + cbn. tauto.
    + reflexivity.
  - destruct (split_timestamps_flatten_and_reject empty_file
                [PInt 5; PList [PStr "1:00"; PTuple [PInt 90]]] [] [] "")
      as (_ & _ & _ & _ & _ & Haccept).
    apply Haccept.
    + reflexivity.
    + discriminate.
Defined.

(** ** Command serialisation *)

Lemma if_app {A} (c : bool) (acc x y : list A) :
  (if c then acc ++ x else acc ++ y) = acc ++ (if c then x else y).
Proof. now destruct c. Qed.

Lemma if_app_skip {A} (c : bool) (acc x : list A) :
  (if c then acc ++ x else acc) = acc ++ (if c then x else []).
Proof. destruct c; [reflexivity | now rewrite app_nil_r]. Qed.

Lemma if_skip_app {A} (c : bool) (acc x : list A) :
  (if c then acc else acc ++ x) = acc ++ (if c then [] else x).
Proof. destruct c; [now rewrite app_nil_r | reflexivity]. Qed.

(** The loop body appends the arguments of the track to the list built so
    far. *)
Lemma command_track_args (t : MKVTrack) (acc : list string) :
  command_track t acc = acc ++ track_args t.
Proof.
  unfold command_track, track_args, selection_flags, flag_if_set.
  destruct (track_name t) as [name|]; [destruct (is_set (Some name))|];
  (destruct (language t) as [lang|]; [destruct (is_set (Some lang))|]);
  repeat first [rewrite Bool.if_negb | rewrite if_app_skip
               | rewrite if_skip_app | rewrite if_app];
  rewrite <- ?app_assoc; reflexivity.
Qed.

Lemma command_tracks_args (h : gmap nat MKVTrack) (l : list nat) (acc : list string) :
  command_tracks h l acc = acc ++ concat (List.map track_args (omap (fun r => h !! r) l)).
Proof.
  revert acc. induction l as [|r l IH]; intros acc; cbn [command_tracks omap list_omap].
  - cbn. now rewrite app_nil_r.
  - destruct (h !! r) as [t|].
    + rewrite IH, command_track_args. cbn [List.map concat]. now rewrite <- app_assoc.
    + apply IH.
Qed.

Lemma flag_if_set_app (flag : string) (o : option string) (acc : list string) :
  match o with
  | Some v => if is_set o then acc ++ [flag; v] else acc
  | None => acc
  end = acc ++ flag_if_set flag "" o.
Proof.
  unfold flag_if_set. destruct o as [v|]; [destruct (is_set (Some v))|];
    now rewrite ?app_nil_r.
Qed.

(** The list built by [command] is laid out as the specification says. *)
Lemma command_args_layout (env : Env) (w : world) (output_file : string) :
  command_args env w output_file = command_layout env w output_file.
Proof.
  unfold command_args, command_layout, track_objects.
  cbv zeta. rewrite flag_if_set_app, command_tracks_args, !flag_if_set_app.
  now rewrite <- !app_assoc.
Qed.

Lemma has_segment_here (seg after : list string) : has_segment seg (seg ++ after).
Proof. exists [], after. reflexivity. Qed.

Lemma has_segment_app_r (seg a l : list string) :
  has_segment seg l -> has_segment seg (a ++ l).
Proof.
  intros (before & after & ->). exists (a ++ before), after. now rewrite <- app_assoc.
Qed.

Lemma has_segment_app_l (seg l b : list string) :
  has_segment seg l -> has_segment seg (l ++ b).
Proof.
  intros (before & after & ->). exists before, (after ++ b). now rewrite <- !app_assoc.
Qed.

Lemma has_segment_In (x : string) (l : list string) : has_segment [x] l -> In x l.
Proof. intros (before & after & ->). apply in_or_app. right. now left. Qed.

Lemma has_segment_refl (seg : list string) : has_segment seg seg.
Proof. exists [], []. now rewrite app_nil_r. Qed.

Ltac find_segment :=
  solve [ apply has_segment_here
        | apply has_segment_refl
        | apply has_segment_app_r; find_segment
        | apply has_segment_app_l; find_segment ].

(** C6.  The argument list of [command] is laid out in this order: the
    program, [-o] and the output path; the title flag if a title is set;
    for each track in collection order its name flag and language flag (if
    set), the negation of the default flag (only for a track that is not
    default), the forced flag (only for a forced track), the stream
    selection, the chapter exclusion (if set) and the source path; then the
    chapter-language flag, the chapters flag and the split options.  The
    list is returned as such or joined by spaces, and the container is not
    touched.  For a container of exactly one video track that is not
    default, the list holds [--default-track <id>:0], [-d <id>], [-A] and
    [-S]. *)
Theorem command_argument_order
    (env : Env) (w : world) (output_file : string) (r : nat) (t : MKVTrack) :
  (command_args env w output_file = command_layout env w output_file /\
   command env output_file true w
     = (Return (PList (List.map PStr (command_layout env w output_file))), w) /\
   command env output_file false w
     = (Return (PStr (String.concat " " (command_layout env w output_file))), w)) /\
  (tracks (self w) = [r] -> heap w !! r = Some t ->
   track_type t = "video" -> default_track t = false ->
   has_segment ["--default-track"; str_of_Z (track_id t) +:+ ":0"]
     (command_args env w output_file) /\
   has_segment ["-d"; str_of_Z (track_id t)] (command_args env w output_file) /\
   In "-A" (command_args env w output_file) /\
   In "-S" (command_args env w output_file)).
Proof.
  split.
  - unfold command. rewrite command_args_layout. now repeat split.
  - intros Htracks Hr Hvideo Hdefault.
    rewrite command_args_layout. unfold command_layout, track_objects.
    rewrite Htracks. cbn [omap list_omap]. rewrite Hr. cbn [List.map concat].
    unfold track_args, selection_flags. rewrite Hvideo, Hdefault.
    change (String.eqb "video" "video") with true.
    change (String.eqb "video" "audio") with false.
    change (String.eqb "video" "subtitles") with false. cbv iota.
    split; [find_segment|]. split; [find_segment|].
    split; apply has_segment_In; find_segment.
Qed.

Lemma command_argument_order_witness :
  has_segment ["--default-track"; "0:0"] (command_args no_files one_video_track "out.mkv") /\
  has_segment ["-d"; "0"] (command_args no_files one_video_track "out.mkv") /\
  In "-A" (command_args no_files one_video_track "out.mkv") /\
  In "-S" (command_args no_files one_video_track "out.mkv").
Proof.
  apply (command_argument_order no_files one_video_track "out.mkv" 0%nat video_track);
    reflexivity.
Defined.

(** * Further properties of the track list *)

Lemma with_tracks_id (w : world) : with_tracks (tracks (self w)) w = w.
Proof. destruct w as [h [m t c cl l o]]. reflexivity. Qed.

Lemma with_tracks_twice (l1 l2 : list nat) (w : world) :
  with_tracks l2 (with_tracks l1 w) = with_tracks l2 w.
Proof. reflexivity. Qed.

Lemma tracks_length_with_tracks (l : list nat) (w : world) :
  tracks_length (with_tracks l w) = Z.of_nat (length l).
Proof. reflexivity. Qed.

(** Reading the list after the two writes of an exchange. *)
Lemma swapped_lookup (l : list nat) (i j : nat) (a b : nat) (k : nat) :
  l !! j = Some a -> l !! i = Some b ->
  <[j := b]> (<[i := a]> l) !! k = l !! swap_index i j k.
Proof.
  intros Ha Hb. unfold swap_index.
  assert (Hi : (i < length l)%nat) by (eapply lookup_lt_Some; exact Hb).
  assert (Hj : (j < length l)%nat) by (eapply lookup_lt_Some; exact Ha).
  destruct (decide (k = j)) as [->|Hkj].
  - rewrite list_lookup_insert_eq by (now rewrite length_insert). now rewrite Hb.
  - rewrite list_lookup_insert_ne by congruence.
    destruct (decide (k = i)) as [->|Hki].
    + rewrite list_lookup_insert_eq by exact Hi. now rewrite Ha.
    + now rewrite list_lookup_insert_ne by congruence.
Qed.

Lemma swap_index_involutive (i j k : nat) : swap_index i j (swap_index i j k) = k.
Proof. unfold swap_index. repeat case_decide; congruence. Qed.

Lemma swap_index_inj (i j : nat) : Inj (=) (=) (swap_index i j).
Proof.
  intros k1 k2 H. rewrite <- (swap_index_involutive i j k1), H.
  apply swap_index_involutive.
Qed.

Lemma swapped_twice (l : list nat) (i j : nat) (a b : nat) :
  l !! j = Some a -> l !! i = Some b ->
  forall a' b', <[j := b]> (<[i := a]> l) !! j = Some a' ->
                <[j := b]> (<[i := a]> l) !! i = Some b' ->
  <[j := b']> (<[i := a']> (<[j := b]> (<[i := a]> l))) = l.
Proof.
  intros Ha Hb a' b' Ha' Hb'. apply list_eq. intros k.
  rewrite (swapped_lookup _ i j a' b' k Ha' Hb').
  rewrite (swapped_lookup l i j a b _ Ha Hb).
  now rewrite swap_index_involutive.
Qed.

(** X1.  On valid positions [swap_tracks] ends normally and exchanges the
    two items: the list keeps its length, position [i] holds what was at
    [j] and position [j] what was at [i], every other position is as
    before, no track is lost or duplicated, and nothing but the track list
    changes. *)
Theorem swap_tracks_exchanges (w : world) (i j : Z) :
  0 <= i < tracks_length w -> 0 <= j < tracks_length w ->
  exists l',
    swap_tracks i j w = (Return tt, with_tracks l' w) /\
    length l' = length (tracks (self w)) /\
    l' !! Z.to_nat i = tracks (self w) !! Z.to_nat j /\
    l' !! Z.to_nat j = tracks (self w) !! Z.to_nat i /\
    (forall k, k <> Z.to_nat i -> k <> Z.to_nat j -> l' !! k = tracks (self w) !! k) /\
    l' ≡ₚ tracks (self w).
Proof.
  intros Hi Hj. destruct (swap_tracks_ok w i j Hi Hj) as (a & b & Ha & Hb & Hrun).
  exists (<[Z.to_nat j := b]> (<[Z.to_nat i := a]> (tracks (self w)))).
  split; [exact Hrun|]. split; [now rewrite !length_insert|].
  assert (Hlook := fun k => swapped_lookup _ _ _ _ _ k Ha Hb).
  split; [|split; [|split]].
  - rewrite Hlook. unfold swap_index. repeat case_decide; congruence.
  - rewrite Hlook. unfold swap_index. repeat case_decide; congruence.
  - intros k Hki Hkj. rewrite Hlook. unfold swap_index. repeat case_decide; congruence.
  - apply Permutation_inj. split; [now rewrite !length_insert|].
    exists (swap_index (Z.to_nat i) (Z.to_nat j)). split; [apply swap_index_inj | exact Hlook].
Qed.

Lemma swap_tracks_exchanges_witness :
  exists l',
    swap_tracks 0 2 shared_tracks = (Return tt, with_tracks l' shared_tracks) /\
    length l' = length (tracks (self shared_tracks)) /\
    l' !! Z.to_nat 0 = tracks (self shared_tracks) !! Z.to_nat 2 /\
    l' !! Z.to_nat 2 = tracks (self shared_tracks) !! Z.to_nat 0 /\
    (forall k, k <> Z.to_nat 0 -> k <> Z.to_nat 2 ->
               l' !! k = tracks (self shared_tracks) !! k) /\
    l' ≡ₚ tracks (self shared_tracks).
Proof. apply (swap_tracks_exchanges shared_tracks 0 2); vm_compute; split; congruence. Defined.

(** X2.  Exchanging the same two valid positions twice in a row gives back
    the container as it was. *)
Theorem swap_tracks_twice (w : world) (i j : Z) :
  0 <= i < tracks_length w -> 0 <= j < tracks_length w ->
  then_ (swap_tracks i j) (swap_tracks i j) w = (Return tt, w).
Proof.
  intros Hi Hj. destruct (swap_tracks_ok w i j Hi Hj) as (a & b & Ha & Hb & Hrun).
  unfold then_, bind. rewrite Hrun.
  set (l1 := <[Z.to_nat j := b]> (<[Z.to_nat i := a]> (tracks (self w)))).
  assert (Hlen : tracks_length (with_tracks l1 w) = tracks_length w).
  { rewrite tracks_length_with_tracks. unfold l1, tracks_length. now rewrite !length_insert. }
  destruct (swap_tracks_ok (with_tracks l1 w) i j) as (a' & b' & Ha' & Hb' & Hrun');
    [now rewrite Hlen | now rewrite Hlen |].
  rewrite Hrun'. cbn [with_tracks self set_tracks tracks] in *.
  unfold l1 in *. rewrite (swapped_twice _ _ _ a b Ha Hb a' b' Ha' Hb').
  f_equal. change (with_tracks (tracks (self w)) w = w). apply with_tracks_id.
Qed.

Lemma swap_tracks_twice_witness :
  then_ (swap_tracks 0 1) (swap_tracks 0 1) shared_tracks = (Return tt, shared_tracks).
Proof. apply (swap_tracks_twice shared_tracks 0 1); vm_compute; split; congruence. Defined.

Lemma swap_index_sym (i j k : nat) : swap_index i j (swap_index j i k) = k.
Proof. unfold swap_index. repeat case_decide; congruence. Qed.

(** X3.  [move_track_forward] is the exchange with the next position and
    [move_track_backward] the exchange with the previous one. *)
Theorem move_track_is_swap (w : world) (i : Z) :
  (0 <= i < tracks_length w - 1 -> move_track_forward i w = swap_tracks i (i + 1) w) /\
  (0 < i < tracks_length w -> move_track_backward i w = swap_tracks i (i - 1) w).
Proof.
  split; intros Hi.
  - destruct (move_track_forward_ok w i Hi) as (a & b & Ha & Hb & ->).
    destruct (swap_tracks_ok w i (i + 1)) as (a' & b' & Ha' & Hb' & ->); [lia|lia|].
    congruence.
  - destruct (move_track_backward_ok w i Hi) as (a & b & Ha & Hb & ->).
    destruct (swap_tracks_ok w i (i - 1)) as (a' & b' & Ha' & Hb' & ->); [lia|lia|].
    congruence.
Qed.

Lemma move_track_is_swap_witness :
  move_track_forward 0 shared_tracks = swap_tracks 0 (0 + 1) shared_tracks /\
  move_track_backward 2 shared_tracks = swap_tracks 2 (2 - 1) shared_tracks.
Proof.
  split.
  - apply (move_track_is_swap shared_tracks 0). vm_compute. split; congruence.
  - apply (move_track_is_swap shared_tracks 2). vm_compute. split; congruence.
Defined.

(** X4.  Moving a track forward and then moving it backward from its new
    position gives back the container as it was. *)
Theorem move_track_forward_backward (w : world) (i : Z) :
  0 <= i < tracks_length w - 1 ->
  then_ (move_track_forward i) (move_track_backward (i + 1)) w = (Return tt, w).
Proof.
  intros Hi. destruct (move_track_forward_ok w i Hi) as (a & b & Ha & Hb & Hrun).
  unfold then_, bind. rewrite Hrun.
  set (l1 := <[Z.to_nat (i + 1) := b]> (<[Z.to_nat i := a]> (tracks (self w)))).
  assert (Hlen : tracks_length (with_tracks l1 w) = tracks_length w).
  { rewrite tracks_length_with_tracks. unfold l1, tracks_length. now rewrite !length_insert. }
  destruct (move_track_backward_ok (with_tracks l1 w) (i + 1))
    as (a' & b' & Ha' & Hb' & Hrun'); [rewrite Hlen; lia|].
  rewrite Hrun'. replace (i + 1 - 1) with i in * by lia.
  cbn [with_tracks self set_tracks tracks] in Ha', Hb' |- *.
  assert (Hback : <[Z.to_nat i := b']> (<[Z.to_nat (i + 1) := a']> l1) = tracks (self w)).
  { apply list_eq. intros k.
    rewrite (swapped_lookup l1 (Z.to_nat (i + 1)) (Z.to_nat i) a' b' k Ha' Hb').
    unfold l1. rewrite (swapped_lookup _ (Z.to_nat i) (Z.to_nat (i + 1)) a b _ Ha Hb).
    now rewrite swap_index_sym. }
  rewrite Hback. f_equal.
  change (with_tracks (tracks (self w)) w = w). apply with_tracks_id.
Qed.

Lemma move_track_forward_backward_witness :
  then_ (move_track_forward 1) (move_track_backward (1 + 1)) shared_tracks
    = (Return tt, shared_tracks).
Proof. apply (move_track_forward_backward shared_tracks 1). vm_compute. split; congruence. Defined.

(** X5.  On a valid position [remove_track] ends normally and deletes that
    one item: the list is one shorter, the items before the position stay
    where they are, the items after it move down by one, and nothing but
    the track list changes. *)
Theorem remove_track_deletes (w : world) (i : Z) :
  0 <= i < tracks_length w ->
  exists l',
    remove_track i w = (Return tt, with_tracks l' w) /\
    l' = take (Z.to_nat i) (tracks (self w)) ++ drop (S (Z.to_nat i)) (tracks (self w)) /\
    S (length l') = length (tracks (self w)) /\
    (forall k, (k < Z.to_nat i)%nat -> l' !! k = tracks (self w) !! k) /\
    (forall k, (Z.to_nat i <= k)%nat -> l' !! k = tracks (self w) !! S k).
Proof.
  intros Hi. exists (delete (Z.to_nat i) (tracks (self w))).
  split; [now apply remove_track_ok|]. split; [apply delete_take_drop|].
  unfold tracks_length in Hi.
  destruct (lookup_lt_is_Some_2 (tracks (self w)) (Z.to_nat i)) as [x Hx]; [lia|].
  split; [|split].
  - rewrite length_delete by eauto. lia.
  - intros k Hk. now apply list_lookup_delete_lt.
  - intros k Hk. now apply list_lookup_delete_ge.
Qed.

Lemma remove_track_deletes_witness :
  exists l',
    remove_track 1 shared_tracks = (Return tt, with_tracks l' shared_tracks) /\
    l' = take (Z.to_nat 1) (tracks (self shared_tracks))
         ++ drop (S (Z.to_nat 1)) (tracks (self shared_tracks)) /\
    S (length l') = length (tracks (self shared_tracks)) /\
    (forall k, (k < Z.to_nat 1)%nat -> l' !! k = tracks (self shared_tracks) !! k) /\
    (forall k, (Z.to_nat 1 <= k)%nat -> l' !! k = tracks (self shared_tracks) !! S k).
Proof. apply (remove_track_deletes shared_tracks 1). vm_compute. split; congruence. Defined.

(** ** Looking up *)

Lemma getitem_negative {A} (l : list A) (i : Z) :
  - Z.of_nat (length l) <= i < 0 ->
  exists x, l !! Z.to_nat (Z.of_nat (length l) + i) = Some x /\
            PyList.getitem l i = Return x.
Proof.
  intros Hi. unfold PyList.getitem, PyList.norm_index.
  destruct (0 <=? i) eqn:E0; [apply Z.leb_le in E0; lia|].
  destruct (0 <=? i + Z.of_nat (length l)) eqn:E1; [|apply Z.leb_gt in E1; lia].
  replace (i + Z.of_nat (length l)) with (Z.of_nat (length l) + i) by lia.
  destruct (lookup_lt_is_Some_2 l (Z.to_nat (Z.of_nat (length l) + i))) as [x Hx]; [lia|].
  exists x. now rewrite Hx.
Qed.

Lemma getitem_outside {A} (l : list A) (i : Z) :
  i < - Z.of_nat (length l) \/ Z.of_nat (length l) <= i ->
  PyList.getitem l i = Raise IndexError.
Proof.
  intros Hi. unfold PyList.getitem, PyList.norm_index.
  destruct (0 <=? i) eqn:E0.
  - apply Z.leb_le in E0. destruct (i <? Z.of_nat (length l)) eqn:E1; [|reflexivity].
    apply Z.ltb_lt in E1. lia.
  - apply Z.leb_gt in E0.
    destruct (0 <=? i + Z.of_nat (length l)) eqn:E1; [|reflexivity].
    apply Z.leb_le in E1. lia.
Qed.

Lemma get_track_int (w : world) (i : Z) :
  get_track (PInt i) w =
  match PyList.getitem (tracks (self w)) i with
  | Return r => (Return (OneTrack r), w)
  | Raise e => (Raise e, w)
  end.
Proof.
  unfold get_track, tracks_subscript, tracks_getitem_val. cbn [is_None int_value].
  run_monad. now destruct (PyList.getitem _ _).
Qed.

(** ** Slices *)

Lemma map_seq_shifted (f : nat -> nat) (a c : nat) :
  (forall k, f k = (a + k)%nat) -> List.map f (seq 0 c) = seq a c.
Proof.
  intros Hf. induction c as [|c IH]; [reflexivity|].
  rewrite !seq_S, List.map_app, IH. cbn [List.map]. now rewrite Hf.
Qed.

(** The items at [count] consecutive positions from [first]. *)
Lemma omap_lookup_seq {A} (l : list A) (first count : nat) :
  (first + count <= length l)%nat ->
  omap (fun k => l !! k) (seq first count) = take count (drop first l).
Proof.
  revert first. induction count as [|c IH]; intros first Hlen; [reflexivity|].
  destruct (lookup_lt_is_Some_2 l first) as [x Hx]; [lia|].
  rewrite (drop_S l x first Hx). cbn [seq take].
  specialize (IH (S first)). rewrite <- IH by lia.
  cbn [omap list_omap]. now rewrite Hx.
Qed.

(** A slice with step one between two bounds inside the list. *)
Lemma getslice_between {A} (l : list A) (a b : Z) :
  0 <= a <= b -> b <= Z.of_nat (length l) ->
  PyList.getslice l (Some a) (Some b) None =
  Return (take (Z.to_nat (b - a)) (drop (Z.to_nat a) l)).
Proof.
  intros Hab Hb. unfold PyList.getslice, PyList.slice_positions, PyList.slice_bound.
  change (1 =? 0) with false. change (1 <? 0) with false. cbv iota.
  destruct (a <? 0) eqn:Ea; [apply Z.ltb_lt in Ea; lia|].
  destruct (b <? 0) eqn:Eb; [apply Z.ltb_lt in Eb; lia|].
  rewrite !Z.min_l by lia.
  assert (Hcount : Z.to_nat (if a <? b then (b - a - 1) / 1 + 1 else 0) = Z.to_nat (b - a)).
  { destruct (a <? b) eqn:E; [rewrite Z.div_1_r; lia|]. apply Z.ltb_ge in E. lia. }
  rewrite Hcount.
  rewrite (map_seq_shifted _ (Z.to_nat a)) by (intros k; lia).
  now rewrite omap_lookup_seq by lia.
Qed.

(** The slice without bounds is a copy of the list. *)
Lemma getslice_all {A} (l : list A) : PyList.getslice l None None None = Return l.
Proof.
  unfold PyList.getslice, PyList.slice_positions, PyList.slice_bound.
  change (1 =? 0) with false. change (1 <? 0) with false. cbv iota.
  assert (Hcount : Z.to_nat (if 0 <? Z.of_nat (length l)
                             then (Z.of_nat (length l) - 0 - 1) / 1 + 1 else 0)
                   = length l).
  { destruct (0 <? Z.of_nat (length l)) eqn:E; [rewrite Z.div_1_r; lia|].
    apply Z.ltb_ge in E. lia. }
  rewrite Hcount.
  rewrite (map_seq_shifted _ 0%nat) by (intros k; lia).
  rewrite omap_lookup_seq by lia. now rewrite drop_0, firstn_all.
Qed.

Lemma get_track_slice (w : world) (start stop step : option Z) :
  get_track (PSlice start stop step) w =
  match PyList.getslice (tracks (self w)) start stop step with
  | Return l => (Return (SomeTracks l), w)
  | Raise e => (Raise e, w)
  end.
Proof.
  unfold get_track, tracks_subscript. cbn [is_None]. run_monad.
  now destruct (PyList.getslice _ _ _ _).
Qed.

(** X6.  [get_track] without a position returns the track list; with an
    integer position it follows the indexing of Python lists, so a negative
    position counts from the end ([-1] is the last track) and [IndexError]
    is raised only outside [-length, length); with a slice it returns a new
    list: a copy of the whole list for the slice without bounds, the items
    from [a] up to [b] for two bounds inside the list, and [ValueError] for
    a step of zero; any other position of the model outside [bitmath] (a
    string, a list, a tuple, a set, a plain object) is a [TypeError].  The
    container is never changed. *)
Theorem get_track_indexing (w : world) (i a b : Z) (v : pyval) (start stop : option Z) :
  get_track PNone w = (Return (AllTracks (tracks (self w))), w) /\
  (0 <= i < tracks_length w ->
   exists r, tracks (self w) !! Z.to_nat i = Some r /\
             get_track (PInt i) w = (Return (OneTrack r), w)) /\
  (- tracks_length w <= i < 0 ->
   exists r, tracks (self w) !! Z.to_nat (tracks_length w + i) = Some r /\
             get_track (PInt i) w = (Return (OneTrack r), w)) /\
  (i < - tracks_length w \/ tracks_length w <= i ->
   get_track (PInt i) w = (Raise IndexError, w)) /\
  get_track (PSlice None None None) w = (Return (SomeTracks (tracks (self w))), w) /\
  (0 <= a <= b -> b <= tracks_length w ->
   get_track (PSlice (Some a) (Some b) None) w =
     (Return (SomeTracks
                (take (Z.to_nat (b - a)) (drop (Z.to_nat a) (tracks (self w))))), w)) /\
  get_track (PSlice start stop (Some 0)) w = (Raise ValueError, w) /\
  (is_None v = false -> int_value v = None -> is_slice v = false ->
   from_bitmath v = false ->
   get_track v w = (Raise TypeError, w)).
Proof.
  unfold tracks_length.
  split; [reflexivity|]. split; [|split; [|split; [|split; [|split; [|split]]]]].
  - intros Hi. destruct (getitem_nonneg _ i Hi) as (r & Hr & Hget).
    exists r. split; [exact Hr|]. now rewrite get_track_int, Hget.
  - intros Hi. destruct (getitem_negative _ i Hi) as (r & Hr & Hget).
    exists r. split; [exact Hr|]. now rewrite get_track_int, Hget.
  - intros Hi. now rewrite get_track_int, getitem_outside.
  - now rewrite get_track_slice, getslice_all.
  - intros Hab Hb. now rewrite get_track_slice, getslice_between.
  - now rewrite get_track_slice.
  - intros Hnone Hint Hslice _. unfold get_track, tracks_subscript, tracks_getitem_val.
    rewrite Hnone. destruct v; try discriminate Hslice; rewrite Hint; reflexivity.
Qed.

Lemma get_track_indexing_witness :
  (exists r, tracks (self shared_tracks) !! Z.to_nat (tracks_length shared_tracks + (-1))
             = Some r /\
             get_track (PInt (-1)) shared_tracks = (Return (OneTrack r), shared_tracks)) /\
  get_track (PInt 3) shared_tracks = (Raise IndexError, shared_tracks) /\
  get_track (PInt (-4)) shared_tracks = (Raise IndexError, shared_tracks) /\
  get_track (PSlice (Some 1) (Some 3) None) shared_tracks =
    (Return (SomeTracks
               (take (Z.to_nat (3 - 1)) (drop (Z.to_nat 1) (tracks (self shared_tracks))))),
     shared_tracks) /\
  get_track (PStr "0") shared_tracks = (Raise TypeError, shared_tracks).
Proof.
  split; [|split; [|split; [|split]]].
  - destruct (get_track_indexing shared_tracks (-1) 0 0 PNone None None)
      as (_ & _ & Hneg & _).
    apply Hneg. vm_compute. split; congruence.
  - destruct (get_track_indexing shared_tracks 3 0 0 PNone None None)
      as (_ & _ & _ & Hout & _).
    apply Hout. right. vm_compute. congruence.
  - destruct (get_track_indexing shared_tracks (-4) 0 0 PNone None None)
      as (_ & _ & _ & Hout & _).
    apply Hout. left. vm_compute. reflexivity.
  - destruct (get_track_indexing shared_tracks 0 1 3 PNone None None)
      as (_ & _ & _ & _ & _ & Hslice & _).
    apply Hslice; vm_compute; [split|]; congruence.
  - destruct (get_track_indexing shared_tracks 0 0 0 (PStr "0") None None)
      as (_ & _ & _ & _ & _ & _ & _ & Htype).
    apply Htype; reflexivity.
Defined.

(** X7.  After [replace_track] on a valid position, [get_track] at that
    position returns the new track; the list keeps its length and its other
    positions. *)
Theorem replace_track_then_get (w : world) (i : Z) (t : nat) :
  0 <= i < tracks_length w ->
  exists l',
    then_ (replace_track i t) (get_track (PInt i)) w
      = (Return (OneTrack t), with_tracks l' w) /\
    length l' = length (tracks (self w)) /\
    (forall k, k <> Z.to_nat i -> l' !! k = tracks (self w) !! k).
Proof.
  intros Hi. exists (<[Z.to_nat i := t]> (tracks (self w))).
  split; [|split].
  - unfold then_, bind. rewrite replace_track_ok by exact Hi.
    rewrite get_track_int. cbn [with_tracks self set_tracks tracks].
    unfold tracks_length in Hi.
    destruct (getitem_nonneg (<[Z.to_nat i := t]> (tracks (self w))) i)
      as (r & Hr & ->); [now rewrite length_insert|].
    rewrite list_lookup_insert_eq in Hr by lia. congruence.
  - apply length_insert.
  - intros k Hk. now apply list_lookup_insert_ne.
Qed.

Lemma replace_track_then_get_witness :
  exists l',
    then_ (replace_track 1 2%nat) (get_track (PInt 1)) shared_tracks
      = (Return (OneTrack 2%nat), with_tracks l' shared_tracks) /\
    length l' = length (tracks (self shared_tracks)) /\
    (forall k, k <> Z.to_nat 1 -> l' !! k = tracks (self shared_tracks) !! k).
Proof. apply (replace_track_then_get shared_tracks 1 2%nat). vm_compute. split; congruence. Defined.

(** ** Adding tracks *)

Lemma last_track_of_snoc (w : world) (l : list nat) (r : nat) :
  tracks (self w) = l ++ [r] ->
  get_track (PInt (-1)) w = (Return (OneTrack r), w).
Proof.
  intros Hl. rewrite get_track_int.
  destruct (getitem_negative (tracks (self w)) (-1)) as (x & Hx & ->).
  { rewrite Hl, length_app. cbn [length]. lia. }
  rewrite Hl in Hx. rewrite length_app in Hx. cbn [length] in Hx.
  replace (Z.to_nat (Z.of_nat (length l + 1) + -1)) with (length l) in Hx by lia.
  rewrite list_lookup_middle in Hx by reflexivity. congruence.
Qed.

(** X8.  [add_track] with a track object ends normally and puts the object
    at the end of the list, where [get_track(-1)] finds it.  A non-empty
    [track_name] replaces the name of the object itself; without one (or
    with the empty string) the object is not touched.  No other track
    object changes. *)
Theorem add_track_object (mk : track_constructor) (w : world) (r : nat) (t : MKVTrack)
    (name : option string) :
  heap w !! r = Some t ->
  exists w',
    add_track mk (PObj r) name w = (Return tt, w') /\
    tracks (self w') = tracks (self w) ++ [r] /\
    get_track (PInt (-1)) w' = (Return (OneTrack r), w') /\
    heap w' !! r = Some (if is_set name then set_track_name name t else t) /\
    (forall q, q <> r -> heap w' !! q = heap w !! q).
Proof.
  intros Hr. unfold add_track. rewrite Hr.
  destruct (is_set name) eqn:Hname; run_monad; unfold track_setattr;
    cbn [self heap tracks set_tracks]; eexists; (split; [reflexivity|]);
    cbn [self heap tracks set_tracks PyList.append].
  - split; [reflexivity|]. split; [now apply (last_track_of_snoc _ (tracks (self w)))|].
    split; [now rewrite lookup_alter_eq, Hr|].
    intros q Hq. now rewrite lookup_alter_ne by congruence.
  - split; [reflexivity|]. split; [now apply (last_track_of_snoc _ (tracks (self w)))|].
    split; [exact Hr|]. reflexivity.
Qed.

Lemma add_track_object_witness :
  exists w',
    add_track plain_constructor (PObj 2%nat) (Some "Commentary") shared_tracks
      = (Return tt, w') /\
    tracks (self w') = tracks (self shared_tracks) ++ [2%nat] /\
    get_track (PInt (-1)) w' = (Return (OneTrack 2%nat), w') /\
    heap w' !! 2%nat = Some (if is_set (Some "Commentary")
                             then set_track_name (Some "Commentary") subtitle_track
                             else subtitle_track) /\
    (forall q, q <> 2%nat -> heap w' !! q = heap shared_tracks !! q).
Proof.
  apply (add_track_object plain_constructor shared_tracks 2%nat subtitle_track
           (Some "Commentary")).
  reflexivity.
Defined.

(** X9.  [add_track] with a path builds a track object, puts it on the heap
    at an address that was not in use, and appends it to the list; the
    track objects that existed are unchanged.  When the constructor raises,
    the exception is the one of [add_track] and the container is as
    before. *)
Theorem add_track_path (mk : track_constructor) (w : world) (p : string)
    (name : option string) (t : MKVTrack) (e : exn) :
  (mk p None name = Return t ->
   exists r w',
     add_track mk (PStr p) name w = (Return tt, w') /\
     heap w !! r = None /\
     heap w' = <[r := t]> (heap w) /\
     tracks (self w') = tracks (self w) ++ [r] /\
     (forall q t', heap w !! q = Some t' -> heap w' !! q = Some t')) /\
  (mk p None name = Raise e -> add_track mk (PStr p) name w = (Raise e, w)).
Proof.
  split; intros Hmk; unfold add_track, heap_alloc; run_monad; rewrite Hmk; [|reflexivity].
  cbn [self heap tracks set_tracks].
  assert (Hfresh : heap w !! fresh (dom (heap w)) = None).
  { apply not_elem_of_dom. apply is_fresh. }
  exists (fresh (dom (heap w))). eexists. split; [reflexivity|].
  cbn [self heap tracks set_tracks]. split; [exact Hfresh|].
  split; [reflexivity|]. split; [reflexivity|].
  intros q t' Hq. rewrite lookup_insert_ne; [exact Hq|]. congruence.
Qed.

Lemma add_track_path_witness :
  (exists r w',
     add_track plain_constructor (PStr "extra.mkv") None shared_tracks = (Return tt, w') /\
     heap shared_tracks !! r = None /\
     heap w' = <[r := mkTrack "extra.mkv" 0 "video" None None false false false]>
                 (heap shared_tracks) /\
     tracks (self w') = tracks (self shared_tracks) ++ [r] /\
     (forall q t', heap shared_tracks !! q = Some t' -> heap w' !! q = Some t')) /\
  add_track (fun _ _ _ => Raise FileNotFoundError) (PStr "extra.mkv") None shared_tracks
    = (Raise FileNotFoundError, shared_tracks).
Proof.
  split.
  - apply (add_track_path plain_constructor shared_tracks "extra.mkv" None
             (mkTrack "extra.mkv" 0 "video" None None false false false) TypeError).
    reflexivity.
  - apply (add_track_path (fun _ _ _ => Raise FileNotFoundError) shared_tracks "extra.mkv"
             None video_track FileNotFoundError).
    reflexivity.
Defined.

(** X10.  [add_track] with anything that is neither a string nor a track
    object raises [TypeError] and leaves the container as it was. *)
Theorem add_track_rejects (mk : track_constructor) (w : world) (v : pyval)
    (name : option string) :
  isinstance_str v = false ->
  (forall r, v = PObj r -> heap w !! r = None) ->
  add_track mk v name w = (Raise TypeError, w).
Proof.
  intros Hstr Hobj. destruct v; try discriminate Hstr; try reflexivity.
  unfold add_track. now rewrite (Hobj r eq_refl).
Qed.

Lemma add_track_rejects_witness :
  add_track plain_constructor (PInt 3) (Some "x") shared_tracks
    = (Raise TypeError, shared_tracks) /\
  add_track plain_constructor (PObj 7%nat) None shared_tracks
    = (Raise TypeError, shared_tracks).
Proof.
  split.
  - apply (add_track_rejects plain_constructor shared_tracks (PInt 3) (Some "x")).
    + reflexivity.
    + intros r H. discriminate H.
  - apply (add_track_rejects plain_constructor shared_tracks (PObj 7%nat) None).
    + reflexivity.
    + intros r H. injection H as <-. reflexivity.
Defined.

(** ** Importing a file *)

Lemma alter_fresh (f : MKVTrack -> MKVTrack) (r : nat) (t : MKVTrack)
    (h : gmap nat MKVTrack) :
  alter f r (<[r := t]> h) = <[r := f t]> h.
Proof. apply alter_insert_eq. Qed.

(** One round of the loop of [__init__]: the new object, with the probed
    properties assigned, sits at a fresh address that is appended to the
    list. *)
Lemma import_track_run (mk : track_constructor) (p : string) (track : probe_track)
    (t0 : MKVTrack) (w : world) :
  mk p (Some (probe_id track)) None = Return t0 ->
  import_track mk p track w =
  (Return tt,
   mkWorld (<[fresh (dom (heap w)) := apply_probe track t0]> (heap w))
           (set_tracks (tracks (self w) ++ [fresh (dom (heap w))]) (self w))).
Proof.
  intros Hmk. unfold import_track, apply_probe, heap_alloc, track_setattr, add_track.
  run_monad. rewrite Hmk. cbn [heap self].
  destruct (probe_default_track track), (probe_forced_track track),
           (probe_language track), (probe_track_name track);
    cbn [heap self]; rewrite ?alter_fresh, lookup_insert_eq; reflexivity.
Qed.

Lemma import_loop (mk : track_constructor) (p : string)
    (probed : list probe_track) (built : list MKVTrack) :
  Forall2 (fun track t0 => mk p (Some (probe_id track)) None = Return t0) probed built ->
  forall w, exists refs h',
    for_each probed (import_track mk p) w =
      (Return tt, mkWorld h' (set_tracks (tracks (self w) ++ refs) (self w))) /\
    Forall2 (fun r t => h' !! r = Some t) refs (zip_with apply_probe probed built) /\
    NoDup refs /\
    Forall (fun r => heap w !! r = None) refs /\
    (forall q t, heap w !! q = Some t -> h' !! q = Some t).
Proof.
  induction 1 as [|track t0 probed built Hmk _ IH]; intros w.
  - exists [], (heap w). cbn [for_each zip_with]. rewrite app_nil_r.
    split; [unfold ret; f_equal; now destruct w as [h []]|].
    repeat split; auto using NoDup_nil_2.
  - set (r := fresh (dom (heap w))).
    assert (Hfresh : heap w !! r = None) by (apply not_elem_of_dom, is_fresh).
    destruct (IH (mkWorld (<[r := apply_probe track t0]> (heap w))
                          (set_tracks (tracks (self w) ++ [r]) (self w))))
      as (refs & h' & Hrun & Hobjs & Hnodup & Hnew & Hkeep).
    cbn [heap self tracks set_tracks] in *.
    exists (r :: refs), h'. split; [|split; [|split; [|split]]].
    + cbn [for_each]. unfold bind at 1. rewrite (import_track_run mk p track t0 w Hmk).
      fold r. rewrite Hrun. now rewrite <- app_assoc.
    + cbn [zip_with]. constructor; [|exact Hobjs].
      apply Hkeep. apply lookup_insert_eq.
    + apply NoDup_cons. split; [|exact Hnodup].
      intros Hin. rewrite Forall_forall in Hnew. specialize (Hnew r Hin).
      now rewrite lookup_insert_eq in Hnew.
    + constructor; [exact Hfresh|].
      eapply Forall_impl; [exact Hnew|]. intros q Hq. cbn beta in Hq.
      apply lookup_insert_None in Hq. tauto.
    + intros q t Hq. apply Hkeep. rewrite lookup_insert_ne; [exact Hq|]. congruence.
Qed.

(** The whole of [__init__] when the probe and the constructions succeed. *)
Lemma MKVFile_init_run (env : Env) (mk : track_constructor)
    (probe : string -> outcome probe_info) (w : world) (p : string)
    (title_ : option string) (info : probe_info) (built : list MKVTrack) :
  probe (expanduser env p) = Return info ->
  Forall2 (fun track t0 => mk (expanduser env p) (Some (probe_id track)) None = Return t0)
          (probe_tracks info) built ->
  exists refs h',
    MKVFile_init env mk probe (Some p) title_ w =
      (Return tt,
       mkWorld h' (mkFile "mkvmerge" (imported_title title_ info) None None refs [])) /\
    length refs = length (probe_tracks info) /\
    Forall2 (fun r t => h' !! r = Some t) refs
            (zip_with apply_probe (probe_tracks info) built) /\
    NoDup refs /\
    Forall (fun r => heap w !! r = None) refs /\
    (forall q t, heap w !! q = Some t -> h' !! q = Some t).
Proof.
  intros Hprobe Hbuilt.
  assert (Hinit : forall t0,
    exists refs h',
      for_each (probe_tracks info) (import_track mk (expanduser env p))
        (mkWorld (heap w) (mkFile "mkvmerge" t0 None None [] []))
      = (Return tt, mkWorld h' (mkFile "mkvmerge" t0 None None refs [])) /\
      Forall2 (fun r t => h' !! r = Some t) refs
              (zip_with apply_probe (probe_tracks info) built) /\
      NoDup refs /\ Forall (fun r => heap w !! r = None) refs /\
      (forall q t, heap w !! q = Some t -> h' !! q = Some t)).
  { intros t0.
    destruct (import_loop mk _ _ _ Hbuilt (mkWorld (heap w) (mkFile "mkvmerge" t0 None None [] [])))
      as (refs & h' & Hrun & Hrest).
    exists refs, h'. split; [exact Hrun | exact Hrest]. }
  destruct (Hinit (imported_title title_ info)) as (refs & h' & Hrun & Hobjs & Hrest).
  exists refs, h'. split; [|split; [|split; [exact Hobjs | exact Hrest]]].
  - unfold MKVFile_init. run_monad. rewrite Hprobe. cbn [self heap title].
    unfold imported_title in *.
    destruct (is_set title_) eqn:Htitle; cbn [negb].
    + rewrite Hrun. reflexivity.
    + destruct (probe_title info) as [t|]; unfold set_title;
        cbn [self heap mkvmerge_path title chapters chapter_language tracks
             _split_options];
        rewrite Hrun; reflexivity.
  - apply Forall2_length in Hobjs. rewrite Hobjs, length_zip_with.
    apply Forall2_length in Hbuilt. lia.
Qed.

(** X11.  Importing a file whose probe and track constructions succeed
    gives a container with the default program, no chapters and no split
    options; its title is the one given, or the probed one when none (or
    the empty string) was given; it holds one new track object per probed
    track, in probe order, each at its own fresh address and carrying the
    probed properties over what the constructor set; the track objects that
    existed before are unchanged. *)
Theorem MKVFile_init_imports (env : Env) (mk : track_constructor)
    (probe : string -> outcome probe_info) (w : world) (p : string)
    (title_ : option string) (info : probe_info) (built : list MKVTrack) :
  probe (expanduser env p) = Return info ->
  Forall2 (fun track t0 => mk (expanduser env p) (Some (probe_id track)) None = Return t0)
          (probe_tracks info) built ->
  exists refs h',
    MKVFile_init env mk probe (Some p) title_ w =
      (Return tt,
       mkWorld h' (mkFile "mkvmerge" (imported_title title_ info) None None refs [])) /\
    length refs = length (probe_tracks info) /\
    Forall2 (fun r t => h' !! r = Some t) refs
            (zip_with apply_probe (probe_tracks info) built) /\
    NoDup refs /\
    Forall (fun r => heap w !! r = None) refs /\
    (forall q t, heap w !! q = Some t -> h' !! q = Some t).
Proof. apply MKVFile_init_run. Qed.

Lemma MKVFile_init_imports_witness :
  exists refs h',
    MKVFile_init no_files plain_constructor two_track_probe (Some "film.mkv") (Some "")
      shared_tracks =
      (Return tt, mkWorld h' (mkFile "mkvmerge" (Some "Film") None None refs [])) /\
    length refs = 2%nat /\
    Forall2 (fun r t => h' !! r = Some t) refs
      [mkTrack "film.mkv" 0 "video" None (Some "eng") true false false;
       mkTrack "film.mkv" 1 "video" (Some "Subs") None false true false] /\
    NoDup refs /\
    Forall (fun r => heap shared_tracks !! r = None) refs /\
    (forall q t, heap shared_tracks !! q = Some t -> h' !! q = Some t).
Proof.
  apply (MKVFile_init_imports no_files plain_constructor two_track_probe shared_tracks
           "film.mkv" (Some "")
           (mkProbe (Some "Film")
              [mkProbeTrack 0 (Some true) None (Some "eng") None;
               mkProbeTrack 1 None (Some true) None (Some "Subs")])
           [mkTrack "film.mkv" 0 "video" None None false false false;
            mkTrack "film.mkv" 1 "video" None None false false false]).
  - reflexivity.
  - repeat constructor.
Defined.

(** When the probe fails, so does [__init__], and no track object was
    built. *)
Lemma MKVFile_init_probe_fails (env : Env) (mk : track_constructor)
    (probe : string -> outcome probe_info) (w : world) (p : string)
    (title_ : option string) (e : exn) :
  probe (expanduser env p) = Raise e ->
  exists f, MKVFile_init env mk probe (Some p) title_ w = (Raise e, mkWorld (heap w) f).
Proof.
  intros Hprobe. unfold MKVFile_init. run_monad. rewrite Hprobe.
  eexists. reflexivity.
Qed.

(** ** Merging containers *)

(** X12.  [add_file] with a path imports the file and appends its new
    track objects, in probe order, after the tracks of the container;
    nothing else of the container changes and the track objects that
    existed are unchanged.  When the probe fails, [add_file] raises the
    same exception and the container is as before. *)
Theorem add_file_path (env : Env) (mk : track_constructor)
    (probe : string -> outcome probe_info) (w : world) (p : string)
    (info : probe_info) (built : list MKVTrack) (e : exn) :
  (probe (expanduser env p) = Return info ->
   Forall2 (fun track t0 => mk (expanduser env p) (Some (probe_id track)) None = Return t0)
           (probe_tracks info) built ->
   exists refs h',
     add_file env mk probe (FilePath p) w =
       (Return tt, mkWorld h' (set_tracks (tracks (self w) ++ refs) (self w))) /\
     Forall2 (fun r t => h' !! r = Some t) refs
             (zip_with apply_probe (probe_tracks info) built) /\
     Forall (fun r => heap w !! r = None) refs /\
     (forall q t, heap w !! q = Some t -> h' !! q = Some t)) /\
  (probe (expanduser env p) = Raise e ->
   add_file env mk probe (FilePath p) w = (Raise e, w)).
Proof.
  split.
  - intros Hprobe Hbuilt.
    destruct (MKVFile_init_run env mk probe (mkWorld (heap w) (new_MKVFile None)) p None
                info built Hprobe Hbuilt)
      as (refs & h' & Hrun & _ & Hobjs & _ & Hnew & Hkeep).
    exists refs, h'. split; [|split; [exact Hobjs | split; [exact Hnew | exact Hkeep]]].
    unfold add_file, construct_MKVFile. run_monad. rewrite Hrun. reflexivity.
  - intros Hprobe.
    destruct (MKVFile_init_probe_fails env mk probe (mkWorld (heap w) (new_MKVFile None))
                p None e Hprobe) as (f & Hrun).
    unfold add_file, construct_MKVFile. run_monad. rewrite Hrun.
    cbn [heap]. now rewrite world_eta.
Qed.

Lemma add_file_path_witness :
  (exists refs h',
     add_file no_files plain_constructor two_track_probe (FilePath "film.mkv") shared_tracks =
       (Return tt,
        mkWorld h' (set_tracks (tracks (self shared_tracks) ++ refs) (self shared_tracks))) /\
     Forall2 (fun r t => h' !! r = Some t) refs
       [mkTrack "film.mkv" 0 "video" None (Some "eng") true false false;
        mkTrack "film.mkv" 1 "video" (Some "Subs") None false true false] /\
     Forall (fun r => heap shared_tracks !! r = None) refs /\
     (forall q t, heap shared_tracks !! q = Some t -> h' !! q = Some t)) /\
  add_file no_files plain_constructor (fun _ => Raise FileNotFoundError)
    (FilePath "film.mkv") shared_tracks = (Raise FileNotFoundError, shared_tracks).
Proof.
  split.
  - apply (add_file_path no_files plain_constructor two_track_probe shared_tracks "film.mkv"
             (mkProbe (Some "Film")
                [mkProbeTrack 0 (Some true) None (Some "eng") None;
                 mkProbeTrack 1 None (Some true) None (Some "Subs")])
             [mkTrack "film.mkv" 0 "video" None None false false false;
              mkTrack "film.mkv" 1 "video" None None false false false] TypeError).
    + reflexivity.
    + repeat constructor.
  - apply (add_file_path no_files plain_constructor (fun _ => Raise FileNotFoundError)
             shared_tracks "film.mkv" (mkProbe None []) [] FileNotFoundError).
    reflexivity.
Defined.

(** X13.  [add_file] with a container appends that container's tracks, in
    their order, after its own, and the two containers then share the
    track objects: excluding the internal chapters of the merged container
    sets the flag on the objects the other container lists.  Anything that
    is neither a path nor a container raises [TypeError] and changes
    nothing. *)
Theorem add_file_object_shares (env : Env) (mk : track_constructor)
    (probe : string -> outcome probe_info) (w : world) (other : MKVFile)
    (r : nat) (t : MKVTrack) :
  add_file env mk probe (FileObject other) w
    = (Return tt, with_tracks (tracks (self w) ++ tracks other) w) /\
  add_file env mk probe FileOther w = (Raise TypeError, w) /\
  (r ∈ tracks other -> heap w !! r = Some t ->
   heap (snd (then_ (add_file env mk probe (FileObject other)) exclude_internal_chapters w))
     !! r = Some (set_exclude_chapters true t)).
Proof.
  split; [reflexivity|]. split; [reflexivity|].
  intros Hin Hr. unfold then_, bind.
  change (add_file env mk probe (FileObject other) w)
    with (Return tt, with_tracks (tracks (self w) ++ tracks other) w).
  cbv iota beta.
  unfold exclude_internal_chapters, bind, get_self. rewrite for_each_setattr.
  cbn [snd heap self with_tracks set_tracks tracks].
  rewrite foldl_alter_lookup by apply set_exclude_chapters_idem.
  rewrite decide_True by (apply elem_of_app; now right).
  now rewrite Hr.
Qed.

Lemma add_file_object_shares_witness :
  heap (snd (then_ (add_file no_files plain_constructor two_track_probe
                      (FileObject (mkFile "mkvmerge" None None None [2%nat] [])))
                   exclude_internal_chapters shared_tracks))
    !! 2%nat = Some (set_exclude_chapters true subtitle_track).
Proof.
  apply (add_file_object_shares no_files plain_constructor two_track_probe shared_tracks
           (mkFile "mkvmerge" None None None [2%nat] []) 2%nat subtitle_track).
  - apply list_elem_of_here.
  - reflexivity.
Defined.

(** * Further properties of the command *)

Lemma has_segment_concat (seg x : list string) (l : list (list string)) :
  x ∈ l -> has_segment seg x -> has_segment seg (concat l).
Proof.
  intros Hin Hseg. induction l as [|y l IH]; [now apply not_elem_of_nil in Hin|].
  cbn [concat]. apply elem_of_cons in Hin as [->|Hin].
  - now apply has_segment_app_l.
  - apply has_segment_app_r. now apply IH.
Qed.

Lemma track_args_no_chapters (t : MKVTrack) :
  exclude_chapters t = true ->
  has_segment ["--no-chapters"; path t] (track_args t).
Proof.
  intros He. unfold track_args. rewrite He.
  do 5 apply has_segment_app_r. apply has_segment_refl.
Qed.

Lemma exclude_internal_chapters_run (w : world) :
  exclude_internal_chapters w =
  (Return tt,
   mkWorld (foldl (fun h r => alter (set_exclude_chapters true) r h) (heap w)
                  (tracks (self w)))
           (self w)).
Proof. unfold exclude_internal_chapters, bind, get_self. apply for_each_setattr. Qed.

Lemma track_args_flags (t : MKVTrack) :
  track_args t =
  track_flags t ++ (if exclude_chapters t then ["--no-chapters"] else []) ++ [path t].
Proof. unfold track_args, track_flags. now rewrite <- !app_assoc. Qed.

Lemma track_args_excluded (t : MKVTrack) :
  track_args (set_exclude_chapters true t) = track_flags t ++ ["--no-chapters"; path t].
Proof. now rewrite track_args_flags. Qed.

(** Reading the listed objects from a heap on which those objects were
    altered. *)
Lemma omap_lookup_altered (f : MKVTrack -> MKVTrack) (h h' : gmap nat MKVTrack)
    (l : list nat) :
  (forall r, r ∈ l -> h' !! r = f <$> h !! r) ->
  omap (fun r => h' !! r) l = List.map f (omap (fun r => h !! r) l).
Proof.
  induction l as [|r l IH]; intros Hl; [reflexivity|].
  assert (IH' := IH (fun q Hq => Hl q (list_elem_of_further _ _ _ Hq))).
  cbn [omap list_omap] in *. rewrite (Hl r) by apply list_elem_of_here.
  rewrite IH'. now destruct (h !! r).
Qed.

Lemma track_objects_excluded (w : world) :
  track_objects (snd (exclude_internal_chapters w)) =
  List.map (set_exclude_chapters true) (track_objects w).
Proof.
  rewrite exclude_internal_chapters_run. unfold track_objects. cbn [snd heap self].
  apply omap_lookup_altered. intros r Hr.
  rewrite foldl_alter_lookup by apply set_exclude_chapters_idem.
  now rewrite decide_True by exact Hr.
Qed.

(** X14.  [exclude_internal_chapters] changes the command in one way only:
    where the command had the arguments of a track, it now has the flags of
    that track, then [--no-chapters], then the source path of the track, and
    this for every track of the collection, in order; what stands before
    and after the tracks is the same.  Excluding a second time changes
    nothing more. *)
Theorem exclude_internal_chapters_command (env : Env) (w : world) (output_file : string) :
  command_args env w output_file =
    command_head env w output_file ++
    concat (List.map track_args (track_objects w)) ++
    command_tail w /\
  command_args env (snd (exclude_internal_chapters w)) output_file =
    command_head env w output_file ++
    concat (List.map (fun t => track_flags t ++ ["--no-chapters"; path t])
                     (track_objects w)) ++
    command_tail w /\
  then_ exclude_internal_chapters exclude_internal_chapters w
    = exclude_internal_chapters w.
Proof.
  split; [|split].
  - rewrite command_args_layout. unfold command_layout, command_head, command_tail.
    now rewrite <- !app_assoc.
  - rewrite command_args_layout. unfold command_layout, command_head, command_tail.
    rewrite track_objects_excluded, List.map_map.
    rewrite (List.map_ext _ _ track_args_excluded).
    rewrite exclude_internal_chapters_run. cbn [snd self]. now rewrite <- !app_assoc.
  - unfold then_, bind. rewrite exclude_internal_chapters_run.
    rewrite exclude_internal_chapters_run. cbn [heap self]. f_equal. f_equal.
    apply map_eq. intros q.
    rewrite !foldl_alter_lookup by apply set_exclude_chapters_idem.
    destruct (decide (q ∈ tracks (self w))); [|reflexivity].
    now destruct (heap w !! q).
Qed.

(** On the container that lists one object twice, the flag comes before
    each of the three source paths. *)
Example exclude_internal_chapters_three_paths :
  command_args no_files (snd (exclude_internal_chapters shared_tracks)) "out.mkv" =
  ["mkvmerge"; "-o"; "out.mkv"; "--title"; "Film";
   "--track-name"; "0:Track1"; "--default-track"; "0:0"; "-d"; "0"; "-A"; "-S";
   "--no-chapters"; "in.mkv";
   "--language"; "1:eng"; "-D"; "-a"; "1"; "-S"; "--no-chapters"; "in.mkv";
   "--track-name"; "0:Track1"; "--default-track"; "0:0"; "-d"; "0"; "-A"; "-S";
   "--no-chapters"; "in.mkv";
   "--split"; "size:700000000"].
Proof. vm_compute. reflexivity. Qed.

(** The tail of the command: chapter language, chapters, split options. *)
Lemma command_args_tail (env : Env) (w : world) (output_file : string) :
  exists pre,
    (forall cl c o,
       command_args env
         (mkWorld (heap w)
            (mkFile (mkvmerge_path (self w)) (title (self w)) c cl (tracks (self w)) o))
         output_file
       = pre ++ flag_if_set "--chapter-language" "" cl ++ flag_if_set "--chapters" "" c ++ o).
Proof.
  exists ([mkvmerge_path (self w); "-o"; expanduser env output_file] ++
          flag_if_set "--title" "" (title (self w)) ++
          concat (List.map track_args (track_objects w))).
  intros cl c o. rewrite command_args_layout. unfold command_layout, track_objects.
  cbn [self heap mkvmerge_path title chapters chapter_language tracks _split_options].
  now rewrite <- !app_assoc.
Qed.

(** X15.  After an accepted [add_chapters] the command carries
    [--chapters] with the expanded path right before the split options,
    preceded by the chapter-language flag.  The language is the one given;
    when none is given, a language stored by an earlier call stays and is
    emitted with the new file. *)
Theorem add_chapters_command (env : Env) (w : world) (p : string) (lang : option string)
    (output_file : string) :
  fst (add_chapters env p lang w) = Return tt ->
  expanduser env p <> "" ->
  exists pre,
    command_args env (snd (add_chapters env p lang w)) output_file =
      pre ++
      flag_if_set "--chapter-language" ""
        (if is_set lang then lang else chapter_language (self w)) ++
      ["--chapters"; expanduser env p] ++
      _split_options (self w).
Proof.
  intros Hok Hpath. destruct (command_args_tail env w output_file) as (pre & Htail).
  exists pre.
  assert (Hset : flag_if_set "--chapters" "" (Some (expanduser env p))
                 = ["--chapters"; expanduser env p]).
  { unfold flag_if_set, is_set. now destruct (String.eqb_spec (expanduser env p) ""). }
  rewrite <- Hset. clear Hset.
  revert Hok. unfold add_chapters, open_iso639_2_read. run_monad.
  destruct (isfile env (expanduser env p)); cbn [negb]; [|discriminate].
  destruct (is_set lang) eqn:Hlang.
  - destruct lang as [l|]; [|discriminate Hlang].
    destruct (iso639_2_txt env) as [text|]; [|discriminate].
    destruct (str_contains l text); [|discriminate].
    intros _. cbn [snd heap self]. unfold set_chapter_language, set_chapters.
    cbn [mkvmerge_path title chapters chapter_language tracks _split_options].
    apply Htail.
  - intros _. cbn [snd heap self]. unfold set_chapters. apply Htail.
Qed.

Lemma add_chapters_command_witness :
  exists pre,
    command_args env_three_codes
      (snd (add_chapters env_three_codes "chapters.xml" (Some "fre") shared_tracks)) "out.mkv" =
      pre ++
      flag_if_set "--chapter-language" ""
        (if is_set (Some "fre") then Some "fre" else chapter_language (self shared_tracks)) ++
      ["--chapters"; expanduser env_three_codes "chapters.xml"] ++
      _split_options (self shared_tracks).
Proof.
  apply (add_chapters_command env_three_codes shared_tracks "chapters.xml" (Some "fre")
           "out.mkv").
  - reflexivity.
  - discriminate.
Defined.

(** X16.  After an accepted split call the command is the command of the
    container without split options followed by [--split] and the
    directive of that call: the directive comes last and the directive of
    an earlier call is gone. *)
Theorem split_call_command (env : Env) (c : split_call) (w : world) (output_file : string) :
  fst (run_call c w) = Return tt ->
  exists d,
    _split_options (self (snd (run_call c w))) = ["--split"; d] /\
    command_args env (snd (run_call c w)) output_file =
      command_args env (with_split_options [] w) output_file ++ ["--split"; d].
Proof.
  intros Hok. destruct (run_call_effect c) as [e Hraise | d Hd Hset].
  - rewrite Hraise in Hok. discriminate.
  - exists d. rewrite Hset. cbn [snd]. split; [reflexivity|].
    destruct (command_args_tail env w output_file) as (pre & Htail).
    unfold with_split_options, set_split_options.
    rewrite !Htail. now rewrite app_nil_r, <- !app_assoc.
Qed.

Lemma split_call_command_witness :
  exists d,
    _split_options (self (snd (run_call (SplitDuration (PStr "10:00")) shared_tracks)))
      = ["--split"; d] /\
    command_args no_files (snd (run_call (SplitDuration (PStr "10:00")) shared_tracks))
      "out.mkv" =
      command_args no_files (with_split_options [] shared_tracks) "out.mkv" ++ ["--split"; d].
Proof.
  apply (split_call_command no_files (SplitDuration (PStr "10:00")) shared_tracks "out.mkv").
  reflexivity.
Defined.

(** * Further properties of the timestamp check *)

Lemma matches_alt (a b : regex) (s : string) :
  matches (Alt a b) s = matches a s || matches b s.
Proof.
  revert a b. induction s as [|c s IH]; intros a b; [reflexivity|].
  cbn [matches deriv]. apply IH.
Qed.

(** A string of the first pattern followed by a string of the second one
    matches their concatenation. *)
Lemma matches_cat (r1 r2 : regex) (s1 s2 : string) :
  matches r1 s1 = true -> matches r2 s2 = true ->
  matches (Cat r1 r2) (s1 +:+ s2) = true.
Proof.
  revert r1. induction s1 as [|c s1 IH]; intros r1 H1 H2.
  - cbn [matches] in H1. change ("" +:+ s2) with s2.
    destruct s2 as [|c s2]; cbn [matches deriv nullable] in *.
    + now rewrite H1, H2.
    + rewrite H1, matches_alt, H2. apply orb_true_r.
  - rewrite str_app_cons. cbn [matches deriv] in *.
    destruct (nullable r1); [rewrite matches_alt|]; rewrite IH; auto.
Qed.

Lemma deriv_void_of_foreign (r : regex) (c : ascii) :
  chars_of r c = false -> is_void (deriv c r) = true.
Proof.
  induction r; cbn [chars_of deriv is_void]; try reflexivity.
  - intros H. now rewrite H.
  - intros H. now rewrite H.
  - intros [H1 H2]%orb_false_iff.
    destruct (nullable r1); cbn [is_void]; rewrite IHr1, ?IHr2 by assumption; reflexivity.
  - intros [H1 H2]%orb_false_iff. now rewrite IHr1, IHr2.
  - intros H. now rewrite IHr.
Qed.

Lemma chars_of_deriv (r : regex) (c c' : ascii) :
  chars_of (deriv c r) c' = true -> chars_of r c' = true.
Proof.
  induction r; cbn [chars_of deriv]; try discriminate.
  - now destruct (Ascii.eqb c c0).
  - now destruct (in_range_ascii lo hi c).
  - destruct (nullable r1); cbn [chars_of]; rewrite !orb_true_iff; intuition.
  - rewrite !orb_true_iff. intuition.
  - rewrite !orb_true_iff. intuition.
Qed.

(** A matched string is made of characters of the pattern. *)
Lemma matches_chars (r : regex) (s : string) :
  matches r s = true ->
  Forall (fun c => chars_of r c = true) (list_ascii_of_string s).
Proof.
  revert r. induction s as [|c s IH]; intros r Hm; cbn [list_ascii_of_string].
  - constructor.
  - cbn [matches] in Hm. constructor.
    + destruct (chars_of r c) eqn:Hc; [reflexivity|].
      now rewrite (is_void_matches _ s (deriv_void_of_foreign r c Hc)) in Hm.
    + eapply Forall_impl; [apply IH; exact Hm|].
      intros c'. apply chars_of_deriv.
Qed.

Lemma ts_regex_chars (c : ascii) :
  chars_of (Cat ts_regex (Opt (Chr "010"))) c = true -> ts_char c = true.
Proof.
  unfold ts_char. cbn [chars_of ts_regex Rep exactly upto Opt digit Nat.sub].
  rewrite !orb_true_iff. intuition discriminate.
Qed.

(** X17.  Whatever [plus] is, a string that passes [check_ts] is made only
    of digits, colons, dots and newlines: no sign, no space, no letter gets
    through. *)
Theorem check_ts_alphabet (s : string) (plus : bool) :
  truthy (check_ts (PStr s) plus) = true ->
  Forall (fun c => ts_char c = true) (list_ascii_of_string s).
Proof.
  intros Hok. apply check_ts_truthy in Hok as [Hint | (s' & [= <-] & Hm)]; [discriminate|].
  eapply Forall_impl; [apply (matches_chars _ _ Hm)|].
  intros c. apply ts_regex_chars.
Qed.

Lemma check_ts_alphabet_witness :
  Forall (fun c => ts_char c = true) (list_ascii_of_string "01:30:00.5").
Proof. apply (check_ts_alphabet "01:30:00.5" true). vm_compute. reflexivity. Defined.

(** X18.  A timestamp followed by one newline still passes [check_ts], and
    [split_duration] then puts it, newline included, in the directive. *)
Theorem timestamp_with_newline (w : world) (s : string) (plus : bool) :
  matches ts_regex s = true ->
  check_ts (PStr (s +:+ newline)) plus = PBool true /\
  split_duration (PStr (s +:+ newline)) w =
    (Return tt, with_split_options ["--split"; "duration:" +:+ s +:+ newline] w).
Proof.
  intros Hm.
  assert (Hnl : re_match_anchored ts_regex (s +:+ newline) = true).
  { unfold re_match_anchored. now apply matches_cat. }
  assert (Hcheck : forall b, check_ts (PStr (s +:+ newline)) b = PBool true).
  { intros b. cbn [check_ts]. now rewrite Hnl. }
  split; [apply Hcheck|].
  unfold split_duration. rewrite Hcheck. reflexivity.
Qed.

Lemma timestamp_with_newline_witness :
  check_ts (PStr ("1:30" +:+ newline)) false = PBool true /\
  split_duration (PStr ("1:30" +:+ newline)) empty_file =
    (Return tt, with_split_options ["--split"; "duration:" +:+ "1:30" +:+ newline] empty_file).
Proof. apply (timestamp_with_newline empty_file "1:30" false). vm_compute. reflexivity. Defined.

(** * Further properties of the split directives *)

Lemma split_parts_run (w : world) (parts : pyval) (items : list pyval) :
  py_items parts = Return items ->
  split_parts parts w =
  match items with
  | [] => (Raise ValueError, w)
  | _ :: _ =>
      if forallb valid_pair items
      then (Return tt,
            with_split_options
              ["--split"; "parts:" +:+ String.concat "," (List.map render_pair items)] w)
      else (Raise ValueError, w)
  end.
Proof.
  intros Hitems. unfold split_parts. run_monad. rewrite Hitems.
  destruct items as [|p l]; [reflexivity|]. rewrite length_test_cons.
  destruct (forallb valid_pair (p :: l)) eqn:Hall.
  - rewrite parts_loop_accepts by exact Hall. cbn [List.map].
    now rewrite str_init_comma_terminated.
  - now rewrite parts_loop_rejects.
Qed.

(** X19.  [split_parts] accepts exactly the arguments that have a length,
    are not empty, and whose items -- those of a list, a tuple, a set, the
    keys of a dict, ... -- are all lists or tuples passing the checks (two
    members, each absent, an integer or an unsigned timestamp, the start
    different from the end).  It then sets
    the directive [parts:] followed by the pairs in order, joined by
    commas, each as start, dash, end, with integers suffixed by [s] and
    absent members left empty. *)
Theorem split_parts_accepts (w : world) (parts : pyval) :
  (fst (split_parts parts w) = Return tt <->
   exists items, py_items parts = Return items /\ items <> [] /\
                 forallb valid_pair items = true) /\
  (forall items, py_items parts = Return items -> items <> [] ->
                 forallb valid_pair items = true ->
   split_parts parts w =
     (Return tt,
      with_split_options
        ["--split"; "parts:" +:+ String.concat "," (List.map render_pair items)] w)).
Proof.
  split.
  - split.
    + intros Hok. destruct (py_items parts) as [items|e] eqn:Hitems.
      * exists items. split; [reflexivity|].
        rewrite (split_parts_run w parts items Hitems) in Hok.
        destruct items as [|p l]; [discriminate|]. split; [discriminate|].
        now destruct (forallb valid_pair (p :: l)).
      * unfold split_parts in Hok. revert Hok. run_monad. rewrite Hitems. discriminate.
    + intros (items & Hitems & Hne & Hall).
      rewrite (split_parts_run w parts items Hitems).
      destruct items; [congruence|]. now rewrite Hall.
  - intros items Hitems Hne Hall. rewrite (split_parts_run w parts items Hitems).
    destruct items; [congruence|]. now rewrite Hall.
Qed.

Lemma split_parts_accepts_witness :
  split_parts (PList [PTuple [PNone; PInt 90]; PList [PStr "2:00"; PNone]]) split_before =
    (Return tt,
     with_split_options
       ["--split";
        "parts:" +:+ String.concat ","
          (List.map render_pair [PTuple [PNone; PInt 90]; PList [PStr "2:00"; PNone]])]
       split_before) /\
  split_parts (PIterable [PTuple [PInt 1; PInt 2]]) split_before =
    (Return tt,
     with_split_options
       ["--split";
        "parts:" +:+ String.concat "," (List.map render_pair [PTuple [PInt 1; PInt 2]])]
       split_before).
Proof.
  split.
  - apply (split_parts_accepts split_before
             (PList [PTuple [PNone; PInt 90]; PList [PStr "2:00"; PNone]])).
    + reflexivity.
    + discriminate.
    + vm_compute. reflexivity.
  - apply (split_parts_accepts split_before (PIterable [PTuple [PInt 1; PInt 2]])).
    + reflexivity.
    + discriminate.
    + vm_compute. reflexivity.
Defined.

Lemma valid_pair_needs_sequence (x : pyval) :
  isinstance_list_tuple x = false -> valid_pair x = false.
Proof. now destruct x. Qed.

(** X20.  [split_parts] raises [ValueError] whenever its argument has a
    length but none of its items is a list or a tuple: every string (its
    characters are not pairs, the empty string has no items), a [bytes]
    object, an empty set, a set of numbers.  Called with a value that has
    no length ([None], a number, a slice, a plain object) it raises
    [TypeError].  The container is unchanged in both cases. *)
Theorem split_parts_wrong_argument (w : world) (s : string) (v : pyval)
    (items : list pyval) :
  split_parts (PStr s) w = (Raise ValueError, w) /\
  (py_items v = Return items ->
   Forall (fun x => isinstance_list_tuple x = false) items ->
   split_parts v w = (Raise ValueError, w)) /\
  (has_len v = false -> from_bitmath v = false ->
   split_parts v w = (Raise TypeError, w)).
Proof.
  split; [|split].
  - rewrite (split_parts_run w (PStr s) _ eq_refl).
    destruct s as [|c s]; reflexivity.
  - intros Hitems Hleaves. rewrite (split_parts_run w v items Hitems).
    destruct Hleaves as [|x l Hx _]; [reflexivity|].
    cbn [forallb]. now rewrite (valid_pair_needs_sequence x Hx).
  - intros Hlen _. destruct v; try discriminate Hlen; reflexivity.
Qed.

Lemma split_parts_wrong_argument_witness :
  split_parts (PIterable [PInt 97; PInt 98]) shared_tracks
    = (Raise ValueError, shared_tracks) /\
  split_parts (PIterable []) shared_tracks = (Raise ValueError, shared_tracks) /\
  split_parts (PInt 5) shared_tracks = (Raise TypeError, shared_tracks).
Proof.
  split; [|split].
  - destruct (split_parts_wrong_argument shared_tracks "" (PIterable [PInt 97; PInt 98])
                [PInt 97; PInt 98]) as (_ & Hvalue & _).
    apply Hvalue; [reflexivity | repeat constructor].
  - destruct (split_parts_wrong_argument shared_tracks "" (PIterable []) [])
      as (_ & Hvalue & _).
    apply Hvalue; [reflexivity | constructor].
  - destruct (split_parts_wrong_argument shared_tracks "" (PInt 5) []) as (_ & _ & Htype).
    apply Htype; reflexivity.
Defined.

Lemma split_duration_run (w : world) (v : pyval) :
  split_duration v w =
  if valid_ts v
  then (Return tt, with_split_options ["--split"; "duration:" +:+ render_ts v] w)
  else (Raise TypeError, w).
Proof.
  unfold split_duration, valid_ts, render_ts.
  destruct v; try reflexivity. cbn [isinstance_str isinstance_int andb orb].
  now destruct (truthy (check_ts (PStr s) false)).
Qed.

Lemma split_timestamps_single (w : world) (v : pyval) :
  isinstance_list_tuple v = false ->
  split_timestamps [v] w =
  if valid_ts v
  then (Return tt, with_split_options ["--split"; "timestamps:" +:+ render_ts v] w)
  else if isinstance_str v then (Raise ValueError, w) else (Raise TypeError, w).
Proof.
  intros Hleaf. unfold split_timestamps. rewrite length_test_cons.
  cbn [flatten List.map concat]. rewrite (flatten_leaf v Hleaf). cbn [app].
  unfold valid_ts, render_ts. run_monad. cbn [timestamps_loop].
  destruct (isinstance_int v) eqn:Hint; cbn [orb].
  - rewrite <- (str_app_assoc "timestamps:"), str_init_snoc. reflexivity.
  - destruct (isinstance_str v && truthy (check_ts v false)) eqn:Hstr.
    + destruct v; try discriminate Hstr. cbn [str_add_l].
      rewrite <- (str_app_assoc "timestamps:"), str_init_snoc. reflexivity.
    + cbn [negb andb]. now destruct (isinstance_str v).
Qed.

(** X21.  On a single value that is not a list, [split_duration] and
    [split_timestamps] accept the same values (integers and unsigned
    timestamp strings) and write them the same way after their prefix.
    They differ on what they refuse: [split_duration] always raises
    [TypeError], [split_timestamps] raises [ValueError] for a string and
    [TypeError] for anything else. *)
Theorem split_duration_like_timestamps (w : world) (v : pyval) :
  isinstance_list_tuple v = false ->
  (valid_ts v = true ->
   split_duration v w
     = (Return tt, with_split_options ["--split"; "duration:" +:+ render_ts v] w) /\
   split_timestamps [v] w
     = (Return tt, with_split_options ["--split"; "timestamps:" +:+ render_ts v] w)) /\
  (valid_ts v = false ->
   split_duration v w = (Raise TypeError, w) /\
   split_timestamps [v] w
     = (Raise (if isinstance_str v then ValueError else TypeError), w)).
Proof.
  intros Hleaf. rewrite split_duration_run, (split_timestamps_single w v Hleaf).
  split; intros ->; split; try reflexivity. now destruct (isinstance_str v).
Qed.

Lemma split_duration_like_timestamps_witness :
  (split_duration (PInt 90) empty_file
     = (Return tt, with_split_options ["--split"; "duration:" +:+ render_ts (PInt 90)]
                     empty_file) /\
   split_timestamps [PInt 90] empty_file
     = (Return tt, with_split_options ["--split"; "timestamps:" +:+ render_ts (PInt 90)]
                     empty_file)) /\
  (split_duration (PStr "soon") empty_file = (Raise TypeError, empty_file) /\
   split_timestamps [PStr "soon"] empty_file
     = (Raise (if isinstance_str (PStr "soon") then ValueError else TypeError), empty_file)).
Proof.
  split.
  - apply (split_duration_like_timestamps empty_file (PInt 90)); reflexivity.
  - apply (split_duration_like_timestamps empty_file (PStr "soon")); reflexivity.
Defined.

(** X22.  Only the leaves count for [split_timestamps]: two non-empty
    argument lists with the same leaves in the same order, however they are
    nested, have the same effect. *)
Theorem split_timestamps_nesting (w : world) (a b : list pyval) :
  a <> [] -> b <> [] ->
  flatten (PTuple a) = flatten (PTuple b) ->
  split_timestamps a w = split_timestamps b w.
Proof.
  intros Ha Hb Hflat. unfold split_timestamps.
  destruct a as [|x a]; [congruence|]. destruct b as [|y b]; [congruence|].
  rewrite !length_test_cons. now rewrite Hflat.
Qed.

Lemma split_timestamps_nesting_witness :
  split_timestamps [PList [PInt 1; PTuple [PStr "2:00"]]; PInt 3] empty_file
  = split_timestamps [PInt 1; PStr "2:00"; PList [PList [PInt 3]]] empty_file.
Proof.
  apply (split_timestamps_nesting empty_file
           [PList [PInt 1; PTuple [PStr "2:00"]]; PInt 3]
           [PInt 1; PStr "2:00"; PList [PList [PInt 3]]]).
  - discriminate.
  - discriminate.
  - reflexivity.
Defined.

Lemma concat_map_flatten_leaves (l : list pyval) :
  Forall (fun x => isinstance_list_tuple x = false) l ->
  concat (List.map flatten l) = l.
Proof.
  induction 1 as [|x l Hx _ IH]; [reflexivity|].
  cbn [List.map concat]. now rewrite (flatten_leaf x Hx), IH.
Qed.

(** X23.  Flattening what was flattened changes nothing: a list of leaves
    is its own flattening. *)
Theorem flatten_idempotent (v : pyval) :
  flatten (PList (flatten v)) = flatten v /\
  flatten (PTuple (flatten v)) = flatten v.
Proof.
  cbn [flatten]. split; apply concat_map_flatten_leaves, flatten_flat.
Qed.

(** * Further properties of the chapter attachment *)



(** X25.  Without a language, or with the empty string as language, the
    reference file is not consulted at all: [add_chapters] succeeds as soon
    as the chapters file exists, sets [chapters] to the expanded path and
    keeps the chapter language the container had. *)
Theorem add_chapters_without_language (env : Env) (w : world) (p : string)
    (lang : option string) :
  is_set lang = false ->
  isfile env (expanduser env p) = true ->
  add_chapters env p lang w =
    (Return tt, mkWorld (heap w) (set_chapters (Some (expanduser env p)) (self w))).
Proof.
  intros Hlang Hfile. unfold add_chapters. run_monad. now rewrite Hfile, Hlang.
Qed.

Lemma add_chapters_without_language_witness :
  add_chapters (mkEnv (fun p => p) (fun _ => true) None) "chapters.xml" (Some "")
      shared_tracks =
    (Return tt,
     mkWorld (heap shared_tracks) (set_chapters (Some "chapters.xml") (self shared_tracks))).
Proof.
  apply (add_chapters_without_language (mkEnv (fun p => p) (fun _ => true) None)
           shared_tracks "chapters.xml" (Some "")); reflexivity.
Defined.
